(** * Event store (Postgres backend): a shallow embedding

    This development models the event store of
    [src/event-store/stores/postgres/event-store.ts] and its
    [EventProvider] ([providers/event.ts]), together with the SQLite
    variant of [reduce], and proves the properties of the write path,
    the read queries and the reducer/snapshot machinery. *)

From Stdlib Require Import String List Bool Arith Lia.
From Stdlib Require Import Sorting.Permutation Sorting.Sorted Sorting.Mergesort.
From Stdlib Require Import Orders.
From Stdlib Require OrdersEx.
Import ListNotations.
Open Scope string_scope.
Open Scope list_scope.

(* ------------------------------------------------------------------ *)
(** ** Data model *)

(** An event record, as a row of the [events] table.  The JSON payloads
    [data] and [meta] are kept as their serialised text. *)
Record EventRecord := mkRecord {
  id : string;
  stream : string;
  type : string;
  data : string;
  meta : string;
  created : string;
  recorded : string
}.

(** Sort direction of [EventReadOptions]. *)
Inductive Direction := Asc | Desc.

(** [EventReadOptions]: [filter.types], [cursor] and [direction]; every
    field is optional in TypeScript. *)
Record EventReadOptions := mkOptions {
  filter_types : option (list string);
  cursor : option string;
  direction : option Direction
}.

Definition no_options : EventReadOptions := mkOptions None None None.

(* ------------------------------------------------------------------ *)
(** ** SQL conditions *)

(** A drizzle [SQL] condition over a row of the events table. *)
Definition Cond := EventRecord -> bool.

(** [and(...filters)]. *)
Definition and_ (fs : list Cond) : Cond :=
  fun r => forallb (fun f => f r) fs.

(** [inArray(column, values)]; an empty array matches nothing. *)
Definition inArray (v : string) (vs : list string) : bool :=
  existsb (String.eqb v) vs.

(** JavaScript truthiness of a string: only [""] is falsy. *)
Definition truthy (s : string) : bool :=
  match s with
  | EmptyString => false
  | String _ _ => true
  end.

(** The SQL engine's [ORDER BY created]: a permutation of its input that
    is non-decreasing in [created].  The order among rows that share a
    [created] value is the engine's choice. *)
Definition created_le (a b : EventRecord) : Prop :=
  String.leb (created a) (created b) = true.

Class Engine := {
  order_by_created : list EventRecord -> list EventRecord
}.

Class EngineLaws `{Engine} := {
  order_perm : forall l, Permutation l (order_by_created l);
  order_sorted : forall l, Sorted created_le (order_by_created l)
}.

(** One engine: a stable merge sort on [created]. *)
Module CreatedOrder <: TotalLeBool'.
Definition t := EventRecord.
Definition leb (a b : EventRecord) : bool := String.leb (created a) (created b).
Theorem leb_total : forall a b, leb a b = true \/ leb b a = true.
Proof. intros a b. apply String.leb_total. Qed.
End CreatedOrder.

Module CreatedSort := Sort CreatedOrder.

#[export] Instance merge_engine : Engine := {
  order_by_created := CreatedSort.sort
}.

#[export] Instance merge_engine_laws : EngineLaws.
Proof.
  constructor.
  - intro l. apply CreatedSort.Permuted_sort.
  - intro l. apply Sorted_LocallySorted_iff.
    exact (CreatedSort.LocallySorted_sort l).
Qed.

(* ------------------------------------------------------------------ *)
(** ** [EventProvider] (providers/event.ts) *)

Module EventProvider.
Section Queries.
Context `{Engine}.

(** [#withTypes(types)]. *)
Definition withTypes (types : list string) : Cond :=
  fun r => inArray (type r) types.

(** [#withCursor(cursor, direction)]: [lt] when descending, [gt]
    otherwise. *)
Definition withCursor (c : string) (d : option Direction) : Cond :=
  match d with
  | Some Desc => fun r => String.ltb (created r) c
  | _ => fun r => String.ltb c (created r)
  end.

(** [#withFilters(options, filters)]: pushes the type filter, then the
    cursor filter when the cursor is truthy. *)
Definition withFilters (o : EventReadOptions) (filters : list Cond) : list Cond :=
  let f1 := match filter_types o with
            | Some ts => filters ++ [withTypes ts]
            | None => filters
            end in
  match cursor o with
  | Some c => if truthy c then f1 ++ [withCursor c (direction o)] else f1
  | None => f1
  end.

(** [select().from(events).where(cond)]. *)
Definition where_ (tbl : list EventRecord) (c : Cond) : list EventRecord :=
  filter c tbl.

(** [get(options)]. *)
Definition get (o : EventReadOptions) (tbl : list EventRecord) : list EventRecord :=
  let filters := withFilters o [] in
  if negb (Nat.eqb (length filters) 0) then order_by_created (where_ tbl (and_ filters))
  else order_by_created tbl.

(** [eq(events.stream, stream)]. *)
Definition eqStream (s : string) : Cond := fun r => String.eqb (stream r) s.

(** The first condition of a list ([filters[0]]); the lists built below
    are never empty. *)
Definition first_cond (fs : list Cond) : Cond :=
  match fs with
  | f :: _ => f
  | [] => fun _ => true
  end.

(** [getByStream(stream, options)]. *)
Definition getByStream (s : string) (o : EventReadOptions) (tbl : list EventRecord)
  : list EventRecord :=
  let filters := withFilters o [eqStream s] in
  if Nat.ltb 1 (length filters) then order_by_created (where_ tbl (and_ filters))
  else order_by_created (where_ tbl (first_cond filters)).

(** [getByStreams(streams, options)]. *)
Definition getByStreams (ss : list string) (o : EventReadOptions) (tbl : list EventRecord)
  : list EventRecord :=
  let filters := withFilters o [fun r => inArray (stream r) ss] in
  if Nat.ltb 1 (length filters) then order_by_created (where_ tbl (and_ filters))
  else order_by_created (where_ tbl (first_cond filters)).

End Queries.

(** [getById(id)]: the first row with that id ([takeOne]). *)
Definition getById (i : string) (tbl : list EventRecord) : option EventRecord :=
  match filter (fun r => String.eqb (id r) i) tbl with
  | r :: _ => Some r
  | [] => None
  end.

(** [checkOutdated({stream, type, created})]: a positive row count over the rows
    of the same stream and type with a greater [created]. *)
Definition checkOutdated (tbl : list EventRecord) (r : EventRecord) : bool :=
  Nat.ltb 0 (length (where_ tbl (and_ [eqStream (stream r);
                                 (fun x => String.eqb (type x) (type r));
                                 (fun x => String.ltb (created r) (created x))]))).

End EventProvider.

(* ------------------------------------------------------------------ *)
(** ** Reducer states, snapshots, contexts *)

#[local] Set Warnings "-register-all".

(** JSON values: the reducer states stored in the [snapshots] table. *)
Inductive json :=
| JNull
| JBool (b : bool)
| JNum (n : nat)
| JStr (s : string)
| JArr (l : list json)
| JObj (l : list (string * json)).

(** A row of the [snapshots] table. *)
Record Snapshot := mkSnapshot {
  snap_name : string;
  snap_key : string;
  snap_cursor : string;
  snap_state : json
}.

(** A context operation produced by a contextor reducer. *)
Inductive ContextOpKind := OpInsert | OpRemove.

Record ContextOp := mkContextOp {
  op : ContextOpKind;
  ctx_key : string;
  ctx_stream : string
}.

(** A reducer descriptor: [{name, type, filter, reduce}]; [rfilter] is
    [filter.types]. *)
Inductive ReducerType := RStream | RContext.

Record Reducer := mkReducer {
  name : string;
  rtype : ReducerType;
  rfilter : option (list string);
  rreduce : list EventRecord -> option json -> json
}.

(** Observable effects, in the order they happen. *)
Inductive Effect :=
| QGetById (i : string)
| QCheckOutdated (r : EventRecord)
| EHydrated (r : EventRecord) (hydrated : bool)
| EInsert (r : EventRecord)
| ECommit
| ERollback
| EContext (r : EventRecord)
| EProject (r : EventRecord) (hydrated outdated : bool)
| EHookInserted (r : EventRecord) (existing : bool)
| EHookError (r : EventRecord)
| ESnapshot (n k : string).

(** The database (three tables) and the trace of effects. *)
Record Store := mkStore {
  events_tbl : list EventRecord;
  contexts_tbl : list (string * string);
  snapshots_tbl : list Snapshot;
  log : list Effect
}.

Inductive UniqueIndex := IdIndex | StreamCreatedIndex.

Inductive Error :=
| ValidationError (i : string)
| UniqueViolation (ix : UniqueIndex)
| Conflict
| ReferenceError (ident : string)
| EmptyValues.

(* ------------------------------------------------------------------ *)
(** ** A state and error monad for the asynchronous façade *)

Inductive Result (A : Type) :=
| Ok (a : A)
| Throw (e : Error).
Arguments Ok {A} a.
Arguments Throw {A} e.

Definition M (A : Type) := Store -> Result A * Store.

Definition ret {A} (a : A) : M A := fun st => (Ok a, st).

Definition bind {A B} (m : M A) (k : A -> M B) : M B :=
  fun st => match m st with
            | (Ok a, st') => k a st'
            | (Throw e, st') => (Throw e, st')
            end.

Definition throw {A} (e : Error) : M A := fun st => (Throw e, st).

Definition tell (e : Effect) : M unit :=
  fun st => (Ok tt, mkStore (events_tbl st) (contexts_tbl st) (snapshots_tbl st)
                            (log st ++ [e])).

(** A read of the events table. *)
Definition read {A} (f : list EventRecord -> A) : M A :=
  fun st => (Ok (f (events_tbl st)), st).

Declare Scope m_scope.
Delimit Scope m_scope with m.
Notation "'let*' x ':=' m 'in' k" := (bind m (fun x => k))
  (at level 200, x ident, m at level 100, k at level 200) : m_scope.
Notation "m ;; k" := (bind m (fun _ => k))
  (at level 100, right associativity) : m_scope.
Open Scope m_scope.

(** [for (const x of xs) await f(x)]. *)
Fixpoint for_ {A} (xs : list A) (f : A -> M unit) : M unit :=
  match xs with
  | [] => ret tt
  | x :: xs' => f x ;; for_ xs' f
  end.

(** [db.transaction(body)]: commit when the body resolves; when it throws,
    the tables are rolled back and the error is rethrown.  The trace keeps
    what happened inside the body. *)
Definition transaction {A} (body : M A) : M A :=
  fun st => match body st with
            | (Ok a, st') => (Ok a, snd (tell ECommit st'))
            | (Throw e, st') =>
                (Throw e, mkStore (events_tbl st) (contexts_tbl st) (snapshots_tbl st)
                                  (log st' ++ [ERollback]))
            end.

Definition set_events (st : Store) (t : list EventRecord) : Store :=
  mkStore t (contexts_tbl st) (snapshots_tbl st) (log st).
Definition set_contexts (st : Store) (t : list (string * string)) : Store :=
  mkStore (events_tbl st) t (snapshots_tbl st) (log st).
Definition set_snapshots (st : Store) (t : list Snapshot) : Store :=
  mkStore (events_tbl st) (contexts_tbl st) t (log st).

(* ------------------------------------------------------------------ *)
(** ** Providers as store operations *)

(** [events.getById(id)]. *)
Definition events_getById (i : string) : M (option EventRecord) :=
  tell (QGetById i) ;; read (EventProvider.getById i).

(** [events.checkOutdated(record)]. *)
Definition events_checkOutdated (r : EventRecord) : M bool :=
  tell (QCheckOutdated r) ;; read (fun tbl => EventProvider.checkOutdated tbl r).

(** Modelled from the spec: the unique indexes of the events schema
    (schemas/events.ts), on [id] and on [(stream, created)], which make
    [events.insert(record)] fail with a unique violation. *)
Definition events_insert (r : EventRecord) : M unit :=
  fun st =>
    if existsb (fun x => String.eqb (id x) (id r)) (events_tbl st)
    then (Throw (UniqueViolation IdIndex), st)
    else if existsb (fun x => String.eqb (stream x) (stream r)
                              && String.eqb (created x) (created r)) (events_tbl st)
    then (Throw (UniqueViolation StreamCreatedIndex), st)
    else (tell (EInsert r) (set_events st (events_tbl st ++ [r]))).

(** Modelled from the spec: [ContextProvider.handle(op)] (providers/context.ts)
    applies an insert or remove entry; the table holds the current
    [(key, stream)] associations. *)
Definition contexts_handle (o : ContextOp) : M unit :=
  fun st =>
    let p := (ctx_key o, ctx_stream o) in
    let same q := String.eqb (fst q) (fst p) && String.eqb (snd q) (snd p) in
    match op o with
    | OpInsert =>
        if existsb same (contexts_tbl st) then (Ok tt, st)
        else (Ok tt, set_contexts st (contexts_tbl st ++ [p]))
    | OpRemove => (Ok tt, set_contexts st (filter (fun q => negb (same q)) (contexts_tbl st)))
    end.

(** Modelled from the spec: [ContextProvider.getByKey(key)], the distinct
    streams currently associated with the key. *)
Definition contexts_getByKey (k : string) : M (list string) :=
  fun st => (Ok (map snd (filter (fun q => String.eqb (fst q) k) (contexts_tbl st))), st).

Definition snap_is (n k : string) (s : Snapshot) : bool :=
  String.eqb (snap_name s) n && String.eqb (snap_key s) k.

(** Modelled from the spec: [SnapshotProvider.getByStream(name, key)]
    (providers/snapshot.ts). *)
Definition snapshots_getByStream (n k : string) : M (option Snapshot) :=
  fun st => (Ok (find (snap_is n k) (snapshots_tbl st)), st).

(** Modelled from the spec: [SnapshotProvider.insert(name, key, cursor,
    state)], an upsert keyed by [(name, key)]. *)
Definition snapshots_insert (n k c : string) (s : json) : M unit :=
  fun st =>
    tell (ESnapshot n k)
      (set_snapshots st (filter (fun x => negb (snap_is n k x)) (snapshots_tbl st)
                         ++ [mkSnapshot n k c s])).

(** Modelled from the spec: [SnapshotProvider.remove(name, key)]. *)
Definition snapshots_remove (n k : string) : M unit :=
  fun st => (Ok tt, set_snapshots st (filter (fun x => negb (snap_is n k x)) (snapshots_tbl st))).

(** [records.slice(i, j)]. *)
Definition slice {A : Type} (l : list A) (i j : nat) : list A :=
  firstn (j - i) (skipn i l).

(** [tx.insert(events).values(rows)]: one statement; drizzle refuses an
    empty [rows] before reaching the database, and when one of the rows
    violates an index, none of them is kept. *)
Definition insert_values (rows : list EventRecord) : M unit :=
  fun st => match rows with
            | [] => (Throw EmptyValues, st)
            | _ :: _ =>
                match for_ rows events_insert st with
                | (Ok _, st') => (Ok tt, st')
                | (Throw e, _) => (Throw e, st)
                end
            end.

(** The loop of [insertMany] from the counter [i],
    [for (; i < records.length; i += batchSize)]: each batch is inserted
    before the counter moves on, and a batch that throws ends the loop.
    [fuel] bounds the number of tests of the loop condition; [None] is a
    loop that has not finished within it. *)
Fixpoint insert_batches (fuel : nat) (records : list EventRecord) (batchSize i : nat)
  (st : Store) : option (Result unit * Store) :=
  match fuel with
  | O => None
  | S f =>
      if Nat.ltb i (length records) then
        match insert_values (slice records i (i + batchSize)) st with
        | (Ok _, st1) => insert_batches f records batchSize (i + batchSize) st1
        | (Throw e, st1) => Some (Throw e, st1)
        end
      else Some (Ok tt, st)
  end.

(** [EventProvider.insertMany(records, batchSize)]: the loop inside one
    [db.transaction] opened on [st], which commits or rolls back the
    outcome of the loop. *)
Definition insertMany (fuel : nat) (records : list EventRecord) (batchSize : nat)
  (st : Store) : option (Result unit * Store) :=
  match insert_batches fuel records batchSize 0 st with
  | Some outcome => Some (transaction (fun _ => outcome) st)
  | None => None
  end.

(* ------------------------------------------------------------------ *)
(** ** Configuration *)

Inductive SnapshotMode := Manual | Auto.

(** Caller input of [makeEvent]/[addEvent]. *)
Record EventInput := mkInput {
  in_type : string;
  in_stream : option string;
  in_data : string;
  in_meta : string
}.

(** The store configuration, with the collaborators whose code is not in
    this package as functions: the validators, the contextor reducers, the
    minimal step of a [created] timestamp, and the record factory (which
    draws a fresh id and a timestamp). *)
Record Config := mkConfig {
  snapshot : option SnapshotMode;
  validate : EventRecord -> bool;
  contextor_ops : EventRecord -> list ContextOp;
  bump_created : string -> string;
  createEventRecord : EventInput -> EventRecord
}.

(* ------------------------------------------------------------------ *)
(** ** The façade ([PostgresEventStore], event-store.ts) *)

(** [EventStatus]. *)
Record EventStatus := mkStatus { exists_ : bool; outdated : bool }.

(** Outcome of the insert step of the append protocol. *)
Inductive InsertOutcome :=
| Inserted (r : EventRecord)
| DuplicateId.

Definition max_insert_attempts : nat := 16.

(** The record with another [created]. *)
Definition with_created (r : EventRecord) (c : string) : EventRecord :=
  mkRecord (id r) (stream r) (type r) (data r) (meta r) c (recorded r).

Section Facade.
Context `{Engine} (cfg : Config).

(** [this.#snapshot = config.snapshot ?? "manual"]. *)
Definition snapshot_mode : SnapshotMode :=
  match snapshot cfg with Some m => m | None => Manual end.

(** Modelled from the spec: [Contextor.push(record)] (libraries/contextor.ts)
    applies the operations of the registered contextor reducers, in order,
    through [contexts.handle]. *)
Definition contextor_push (r : EventRecord) : M unit :=
  tell (EContext r) ;; for_ (contextor_ops cfg r) contexts_handle.

(** Modelled from the spec: [Projector.project(record, {hydrated, outdated})]
    (libraries/projector.ts) dispatches the record to the registered
    handlers; the dispatch is the observable effect. *)
Definition project (r : EventRecord) (hydrated outdated : bool) : M unit :=
  tell (EProject r hydrated outdated).

(** [await Promise.all([a, b])]: both tasks complete before it resolves;
    [left_first] is the interleaving picked by the runtime.  The two tasks
    below touch disjoint state (the contexts table, the projections). *)
Definition promise_all2 (left_first : bool) (a b : M unit) : M unit :=
  if left_first then a ;; b else b ;; a.

(** Modelled from the spec: [pushEventRecordUpdates(store, record, hydrated,
    status)] (utilities/event-store), the fan-out step: contextor and
    projector, then the [EventInserted] hook. *)
Definition pushEventRecordUpdates (r : EventRecord) (hydrated outdated : bool) : M unit :=
  promise_all2 true (contextor_push r) (project r hydrated outdated) ;;
  tell (EHookInserted r false).

(** Modelled from the spec: step 4 of the append protocol, [events.insert]
    with the [(stream, created)] bump-and-retry, at most
    [max_insert_attempts] attempts; an [id] violation is idempotent. *)
Fixpoint insert_retry (attempts : nat) (r : EventRecord) : M InsertOutcome :=
  fun st =>
    match attempts with
    | O => (Throw Conflict, st)
    | S a =>
        match events_insert r st with
        | (Ok _, st') => (Ok (Inserted r), st')
        | (Throw (UniqueViolation IdIndex), st') => (Ok DuplicateId, st')
        | (Throw (UniqueViolation StreamCreatedIndex), st') =>
            insert_retry a (with_created r (bump_created cfg (created r))) st'
        | (Throw e, st') => (Throw e, st')
        end
    end.

(** Modelled from the spec: [pushEventRecord(store, record, hydrated)]
    (utilities/event-store/push-event-record.ts), steps 1 to 6. *)
Definition pushEventRecord (r : EventRecord) (hydrated : bool) : M string :=
  tell (EHydrated r hydrated) ;;
  let* existing := events_getById (id r) in
  match existing with
  | Some _ => tell (EHookInserted r true) ;; ret (id r)
  | None =>
      if validate cfg r then
        let* outdated := (if hydrated then ret false else events_checkOutdated r) in
        let* ins := insert_retry max_insert_attempts r in
        match ins with
        | Inserted r' => pushEventRecordUpdates r' hydrated outdated ;; ret (id r)
        | DuplicateId => tell (EHookInserted r true) ;; ret (id r)
        end
      else tell (EHookError r) ;; throw (ValidationError (id r))
  end.

(** Modelled from the spec: [pushEventRecordSequence(store, records)]
    (utilities/event-store/push-event-record-sequence.ts): steps 2 to 4 for
    every record; returns the inserted records with their flags. *)
Fixpoint pushEventRecordSequence (rs : list (EventRecord * bool))
  : M (list (EventRecord * bool * bool)) :=
  match rs with
  | [] => ret []
  | (r, h) :: rest =>
      tell (EHydrated r h) ;;
      if validate cfg r then
        let* outdated := (if h then ret false else events_checkOutdated r) in
        let* ins := insert_retry max_insert_attempts r in
        let* tl := pushEventRecordSequence rest in
        match ins with
        | Inserted r' => ret ((r', h, outdated) :: tl)
        | DuplicateId => ret tl
        end
      else tell (EHookError r) ;; throw (ValidationError (id r))
  end.

(** [pushEvent(record, hydrated = true)]. *)
Definition pushEvent (r : EventRecord) (hydrated : option bool) : M string :=
  pushEventRecord r (match hydrated with None => true | Some b => b end).

(** [record.hydrated === undefined ? true : record.hydrated]. *)
Definition default_hydrated (x : EventRecord * option bool) : EventRecord * bool :=
  (fst x, match snd x with None => true | Some b => b end).

(** [pushEventSequence(records)]: the sequence inside one transaction, then
    the fan-out of every inserted record, one after the other. *)
Definition pushEventSequence (records : list (EventRecord * option bool)) : M unit :=
  let* inserted := transaction (pushEventRecordSequence (map default_hydrated records)) in
  for_ inserted (fun '(r, h, s) => pushEventRecordUpdates r h s).

(** [addEvent(event)]. *)
Definition addEvent (e : EventInput) : M string :=
  pushEvent (createEventRecord cfg e) (Some false).

(** [addEventSequence(events)]. *)
Definition addEventSequence (es : list EventInput) : M unit :=
  pushEventSequence (map (fun e => (createEventRecord cfg e, Some false)) es).

(** [getEventStatus(event)]. *)
Definition getEventStatus (r : EventRecord) : M EventStatus :=
  let* record := events_getById (id r) in
  match record with
  | Some _ => ret (mkStatus true true)
  | None => let* o := events_checkOutdated r in ret (mkStatus false o)
  end.

(** [getEvents], [getEventsByStream], [getEventsByContext]. *)
Definition getEvents (o : EventReadOptions) : M (list EventRecord) :=
  read (EventProvider.get o).

Definition getEventsByStream (s : string) (o : EventReadOptions) : M (list EventRecord) :=
  read (EventProvider.getByStream s o).

Definition getEventsByContext (k : string) (o : EventReadOptions) : M (list EventRecord) :=
  let* rows := contexts_getByKey k in
  match rows with
  | [] => ret []
  | _ => read (EventProvider.getByStreams rows o)
  end.

(** [replayEvents(stream?)]; [sched i] is the interleaving of the two tasks
    of the [i]-th [Promise.all]. *)
Fixpoint replay_loop (sched : nat -> bool) (i : nat) (events : list EventRecord) : M unit :=
  match events with
  | [] => ret tt
  | e :: es =>
      promise_all2 (sched i) (contextor_push e) (project e true false) ;;
      replay_loop sched (S i) es
  end.

Definition replayEvents (sched : nat -> bool) (s : option string) : M unit :=
  let* events := match s with
                 | Some s => read (EventProvider.getByStream s no_options)
                 | None => read (EventProvider.get no_options)
                 end in
  replay_loop sched 0 events.

(** [getSnapshot(streamOrContext, reducer)]. *)
Definition getSnapshot (key : string) (rd : Reducer) : M (option (string * json)) :=
  let* s := snapshots_getByStream (name rd) key in
  match s with
  | None => ret None
  | Some s => ret (Some (snap_cursor s, snap_state s))
  end.

(** A free identifier of the source: its global binding if there is one,
    a [ReferenceError] otherwise. *)
Definition resolve_global (ident : string) (binding : option string) : M string :=
  match binding with
  | Some v => ret v
  | None => throw (ReferenceError ident)
  end.

(** The read options [reduce] and [createSnapshot] pass. *)
Definition reducer_events (key : string) (rd : Reducer) (c : option string)
  : M (list EventRecord) :=
  match rtype rd with
  | RStream => getEventsByStream key (mkOptions (rfilter rd) c None)
  | RContext => getEventsByContext key (mkOptions (rfilter rd) c None)
  end.

(** [reduce(streamOrContext, reducer)].  The snapshot write names the
    identifier [name], which is not bound in the method; [global_name] is
    its global binding. *)
Definition reduce (global_name : option string) (key : string) (rd : Reducer)
  : M (option json) :=
  let* snapshot := getSnapshot key rd in
  let cursor := option_map fst snapshot in
  let state := option_map snd snapshot in
  let* events := reducer_events key rd cursor in
  match events with
  | [] =>
      match snapshot with
      | Some (_, s) => ret (Some s)
      | None => ret None
      end
  | e :: _ =>
      let result := rreduce rd events state in
      (match snapshot_mode with
       | Auto =>
           let* n := resolve_global "name" global_name in
           snapshots_insert n key (created (last events e)) result
       | Manual => ret tt
       end) ;;
      ret (Some result)
  end.

(** [createSnapshot(streamOrContext, {name, type, filter, reduce})]. *)
Definition createSnapshot (key : string) (rd : Reducer) : M unit :=
  let* events := reducer_events key rd None in
  match events with
  | [] => ret tt
  | e :: _ => snapshots_insert (name rd) key (created (last events e)) (rreduce rd events None)
  end.

(** [deleteSnapshot(streamOrContext, reducer)]. *)
Definition deleteSnapshot (key : string) (rd : Reducer) : M unit :=
  snapshots_remove (name rd) key.

(** [SQLiteEventStore.reduce(stream, reducer)] (the second store of
    providers/event.ts).  Its providers are not part of this package; the
    same read semantics as above are used for them. *)
Definition sqlite_reduce (s : string) (rd : Reducer) : M (option json) :=
  let* snapshot := getSnapshot s rd in
  let cursor := option_map fst snapshot in
  let state := option_map snd snapshot in
  let* events := getEventsByStream s (mkOptions None cursor None) in
  match events with
  | [] => ret None
  | _ => ret (Some (rreduce rd events state))
  end.

End Facade.

(** The three read queries of [EventProvider]. *)
Inductive Query :=
| QAll
| QStream (s : string)
| QStreams (ss : list string).

Definition run_query `{Engine} (q : Query) (o : EventReadOptions) (tbl : list EventRecord)
  : list EventRecord :=
  match q with
  | QAll => EventProvider.get o tbl
  | QStream s => EventProvider.getByStream s o tbl
  | QStreams ss => EventProvider.getByStreams ss o tbl
  end.

(** [P] holds of every two adjacent elements. *)
Fixpoint adjacent (P : EventRecord -> EventRecord -> Prop) (l : list EventRecord) : Prop :=
  match l with
  | a :: ((b :: _) as t) => P a b /\ adjacent P t
  | _ => True
  end.

(** The order [(created ASC, id ASC)], strict. *)
Definition created_id_lt (a b : EventRecord) : Prop :=
  String.ltb (created a) (created b) = true
  \/ (created a = created b /\ String.ltb (id a) (id b) = true).

(** Sample rows. *)
Definition ev (i s t c : string) : EventRecord := mkRecord i s t "{}" "{}" c c.

Definition ev_a : EventRecord := ev "a" "s2" "user:created" "2024-01-01T00:00:00.000Z".
Definition ev_b : EventRecord := ev "b" "s1" "user:created" "2024-01-01T00:00:00.000Z".
Definition ev_c : EventRecord := ev "c" "s2" "user:email-set" "2024-01-02T00:00:00.000Z".

(** A counting reducer over one stream. *)
Definition counter : Reducer :=
  mkReducer "counter" RStream None
    (fun evs s => match s with
                  | Some (JNum n) => JNum (n + length evs)
                  | _ => JNum (length evs)
                  end).

(** A configuration: every typed record validates, no contextor reducer,
    the timestamp step appends a digit, the factory yields a fixed record. *)
Definition sample_config (m : option SnapshotMode) : Config :=
  mkConfig m (fun r => negb (String.eqb (type r) "")) (fun _ => [])
    (fun c => String.append c "1")
    (fun i => ev "fresh" (match in_stream i with Some s => s | None => "fresh-stream" end)
                 (in_type i) "2024-01-03T00:00:00.000Z").

Definition store_of (evs : list EventRecord) (snaps : list Snapshot) : Store :=
  mkStore evs [] snaps [].

(** The store with its trace extended. *)
Definition add_log (st : Store) (l : list Effect) : Store :=
  mkStore (events_tbl st) (contexts_tbl st) (snapshots_tbl st) (log st ++ l).

(** A snapshot of [counter] on stream "s2" taken after [ev_c]. *)
Definition snap_counter_s2 : Snapshot :=
  mkSnapshot "counter" "s2" "2024-01-02T00:00:00.000Z" (JNum 2).

(** The trace of one [Promise.all] of [replayEvents]. *)
Definition replay_block (left_first : bool) (e : EventRecord) : list Effect :=
  if left_first then [EContext e; EProject e true false]
  else [EProject e true false; EContext e].

Fixpoint replay_trace (sched : nat -> bool) (i : nat) (evs : list EventRecord)
  : list Effect :=
  match evs with
  | [] => []
  | e :: es => replay_block (sched i) e ++ replay_trace sched (S i) es
  end.

(** The projector dispatches of a trace. *)
Definition projections (l : list Effect) : list (EventRecord * bool * bool) :=
  flat_map (fun e => match e with EProject r h o => [(r, h, o)] | _ => [] end) l.

(** The record set [replayEvents(stream?)] reads. *)
Definition replay_source `{Engine} (s : option string) (tbl : list EventRecord)
  : list EventRecord :=
  match s with
  | Some s => EventProvider.getByStream s no_options tbl
  | None => EventProvider.get no_options tbl
  end.

(** [l1] is a subsequence of [l2]. *)
Inductive subseq {A : Type} : list A -> list A -> Prop :=
| subseq_nil : subseq [] []
| subseq_take (x : A) (l1 l2 : list A) : subseq l1 l2 -> subseq (x :: l1) (x :: l2)
| subseq_skip (x : A) (l1 l2 : list A) : subseq l1 l2 -> subseq l1 (x :: l2).

(** The records a trace shows inserted into the events table. *)
Definition inserts_of (l : list Effect) : list EventRecord :=
  flat_map (fun e => match e with EInsert r => [r] | _ => [] end) l.

(** Effects that are not part of a fan-out. *)
Definition no_fanout (e : Effect) : Prop :=
  match e with
  | EContext _ | EProject _ _ _ => False
  | _ => True
  end.

(** Effects that are not an insert. *)
Definition no_insert (e : Effect) : Prop :=
  match e with
  | EInsert _ => False
  | _ => True
  end.

(** Effects of the locally originated path: no outdatedness probe and no
    record marked as not hydrated. *)
Definition hydrated_path (e : Effect) : Prop :=
  match e with
  | QCheckOutdated _ | EHydrated _ false => False
  | _ => True
  end.

(** The hydrated marks and outdatedness probes of a trace follow the
    flags of [records], an unspecified flag counting as true: a record is
    marked with the flag it was given, and probed only when given false. *)
Definition flag_marks (records : list (EventRecord * option bool)) (e : Effect) : Prop :=
  match e with
  | EHydrated r h =>
      exists f, In (r, f) records /\ h = match f with None => true | Some b => b end
  | QCheckOutdated r => In (r, Some false) records
  | _ => True
  end.

(** Effects in which no record is marked as hydrated. *)
Definition marks_false (e : Effect) : Prop :=
  match e with
  | EHydrated _ true => False
  | _ => True
  end.

(** The read options in plain terms: the row's type is listed in
    [filter.types] when that is given, and its [created] lies beyond a
    non-empty cursor in the read direction. *)
Definition options_admit (o : EventReadOptions) (x : EventRecord) : bool :=
  match filter_types o with
  | Some ts => existsb (String.eqb (type x)) ts
  | None => true
  end
  && match cursor o with
     | Some (String _ _ as c) =>
         match direction o with
         | Some Desc => String.ltb (created x) c
         | _ => String.ltb c (created x)
         end
     | _ => true
     end.

(** The rows a reducer's read ranges over: the stream [key] for a stream
    reducer, the streams the contexts table associates with [key] for a
    context reducer. *)
Definition reads_scope (key : string) (rd : Reducer) (ctx : list (string * string))
  (x : EventRecord) : bool :=
  match rtype rd with
  | RStream => String.eqb (stream x) key
  | RContext => existsb (fun q => String.eqb (fst q) key && String.eqb (snd q) (stream x)) ctx
  end.

(** The trace of the fan-out of one inserted record. *)
Definition fanout_trace (x : EventRecord * bool * bool) : list Effect :=
  let '(r, h, o) := x in [EContext r; EProject r h o; EHookInserted r false].

Definition fst3 (x : EventRecord * bool * bool) : EventRecord :=
  let '(r, _, _) := x in r.

(** [m] only appends effects satisfying [P] to the trace. *)
Definition appends (P : Effect -> Prop) {A : Type} (m : M A) : Prop :=
  forall st, exists l, log (snd (m st)) = log st ++ l /\ Forall P l.

#[global] Arguments insert_retry : simpl never.
#[global] Arguments EventProvider.checkOutdated : simpl never.

(* ================================================================== *)
(** * Properties *)

(** ** Query layer *)

Lemma length_filter_pos {A} (f : A -> bool) (l : list A) :
  Nat.ltb 0 (length (filter f l)) = true <-> exists x, In x l /\ f x = true.
Proof.
  rewrite Nat.ltb_lt. induction l as [|a l IH]; simpl.
  - split; [lia | intros (x & [] & _)].
  - destruct (f a) eqn:Ha; simpl.
    + split; [intros _; exists a; auto | lia].
    + rewrite IH. split.
      * intros (x & Hx & Hf). exists x; auto.
      * intros (x & [<- | Hx] & Hf); [congruence | eauto].
Qed.

Lemma withFilters_app (o : EventReadOptions) (fs : list Cond) :
  EventProvider.withFilters o fs = fs ++ EventProvider.withFilters o [].
Proof.
  unfold EventProvider.withFilters.
  destruct (filter_types o), (cursor o) as [c|]; try destruct (truthy c);
    simpl; rewrite <- ?app_assoc, ?app_nil_r; reflexivity.
Qed.

Lemma and_true (fs : list Cond) (x : EventRecord) :
  and_ fs x = true <-> Forall (fun f => f x = true) fs.
Proof.
  unfold and_. rewrite forallb_forall, Forall_forall. reflexivity.
Qed.

Section QueryFacts.
Context `{EngineLaws}.

Lemma in_order_by (x : EventRecord) (l : list EventRecord) :
  In x (order_by_created l) <-> In x l.
Proof.
  split; apply Permutation_in; [symmetry|]; apply order_perm.
Qed.

(** Every row a query returns is a row of the table that passes the
    conditions [withFilters] adds. *)
Lemma run_query_sat (q : Query) (o : EventReadOptions) (tbl : list EventRecord)
  (x : EventRecord) :
  In x (run_query q o tbl) ->
  In x tbl /\ Forall (fun f => f x = true) (EventProvider.withFilters o []).
Proof.
  unfold run_query.
  assert (Hb : forall b : Cond,
    In x (if Nat.ltb 1 (length (EventProvider.withFilters o [b]))
          then order_by_created (EventProvider.where_ tbl (and_ (EventProvider.withFilters o [b])))
          else order_by_created (EventProvider.where_ tbl
                                   (EventProvider.first_cond (EventProvider.withFilters o [b])))) ->
    In x tbl /\ Forall (fun f => f x = true) (EventProvider.withFilters o [])).
  { intros b. rewrite (withFilters_app o [b]).
    destruct (EventProvider.withFilters o []) as [|f fs] eqn:E; simpl.
    - rewrite in_order_by. unfold EventProvider.where_. rewrite filter_In.
      intros [Hin _]. split; [exact Hin | constructor].
    - rewrite in_order_by. unfold EventProvider.where_. rewrite filter_In, and_true.
      intros [Hin Hall]. split; [exact Hin|]. inversion Hall; assumption. }
  destruct q as [|s|ss].
  - unfold EventProvider.get.
    destruct (EventProvider.withFilters o []) as [|f fs] eqn:E; simpl.
    + rewrite in_order_by. intros Hin. split; [exact Hin | constructor].
    + rewrite in_order_by. unfold EventProvider.where_. rewrite filter_In, and_true.
      tauto.
  - apply Hb.
  - apply Hb.
Qed.

Lemma sorted_adjacent (l : list EventRecord) :
  Sorted created_le l -> adjacent created_le l.
Proof.
  induction 1 as [|a l Hs IH Hhd]; simpl; [exact I|].
  destruct l as [|b l']; [exact I|].
  split; [inversion Hhd; assumption | exact IH].
Qed.

End QueryFacts.

(** ** C6 *)

(** C6: [checkOutdated(R)] is true if and only if the events table holds a
    row with the stream and type of [R] and a strictly greater [created]. *)
Theorem checkOutdated_spec (tbl : list EventRecord) (r : EventRecord) :
  EventProvider.checkOutdated tbl r = true <->
  exists x, In x tbl /\ stream x = stream r /\ type x = type r
            /\ String.ltb (created r) (created x) = true.
Proof.
  unfold EventProvider.checkOutdated, EventProvider.where_.
  rewrite length_filter_pos. split.
  - intros (x & Hin & Hx). exists x.
    unfold and_, EventProvider.eqStream in Hx. simpl in Hx.
    rewrite !andb_true_iff, !String.eqb_eq in Hx. tauto.
  - intros (x & Hin & Hs & Ht & Hc). exists x. split; [exact Hin|].
    unfold and_, EventProvider.eqStream. simpl.
    rewrite Hs, Ht, Hc, !String.eqb_refl. reflexivity.
Qed.

(** ** C7 *)

(** C7 (as amended): for a read with a non-empty cursor, an ascending or
    unspecified direction returns only rows with [created] strictly greater
    than the cursor, a descending one only rows with [created] strictly
    less; an empty-string cursor is falsy and filters nothing. *)
Theorem withCursor_strict `{EngineLaws} (q : Query) (o : EventReadOptions)
  (tbl : list EventRecord) (c : string) (Hc : cursor o = Some c) :
  (truthy c = true ->
   forall x, In x (run_query q o tbl) ->
   match direction o with
   | Some Desc => String.ltb (created x) c = true
   | _ => String.ltb c (created x) = true
   end)
  /\ (c = "" -> run_query q o tbl = run_query q (mkOptions (filter_types o) None (direction o)) tbl).
Proof.
  split.
  - intros Ht x Hx. apply run_query_sat in Hx as [_ Hall].
    unfold EventProvider.withFilters in Hall. rewrite Hc, Ht in Hall.
    apply Forall_app in Hall as [_ Hcur]. inversion Hcur as [|? ? Hf _]; subst.
    unfold EventProvider.withCursor in Hf.
    destruct (direction o) as [[|]|]; exact Hf.
  - intros ->. destruct o as [ft cur d]. simpl in Hc. subst cur.
    destruct q; reflexivity.
Qed.

Lemma withCursor_strict_witness :
  cursor (mkOptions None (Some "2025") (Some Desc)) = Some "2025" /\
  ((truthy "2025" = true ->
    forall x, In x (run_query QAll (mkOptions None (Some "2025") (Some Desc)) [ev_a; ev_c]) ->
    String.ltb (created x) "2025" = true)
   /\ ("2025" = "" ->
       run_query QAll (mkOptions None (Some "2025") (Some Desc)) [ev_a; ev_c]
       = run_query QAll (mkOptions None None (Some Desc)) [ev_a; ev_c])).
Proof.
  split; [reflexivity|].
  exact (withCursor_strict QAll (mkOptions None (Some "2025") (Some Desc)) [ev_a; ev_c]
           "2025" eq_refl).
Defined.

(** C7 fails as stated: a descending read with the cursor [""] returns a
    row whose [created] is not less than [""]. *)
Lemma withCursor_empty_counterexample :
  In ev_a (run_query (QStream "s2") (mkOptions None (Some "") (Some Desc)) [ev_a])
  /\ String.ltb (created ev_a) "" = false.
Proof.
  split; vm_compute; auto.
Qed.

(** ** C3 *)

(** C3 (as amended): every list returned by [get], [getByStream] or
    [getByStreams] is non-decreasing in [created]; the queries order by
    [created] only, so rows sharing a [created] value come in the
    engine's order. *)
Theorem query_order_created `{EngineLaws} (q : Query) (o : EventReadOptions)
  (tbl : list EventRecord) :
  adjacent created_le (run_query q o tbl).
Proof.
  apply sorted_adjacent.
  destruct q; simpl; unfold EventProvider.get, EventProvider.getByStream,
    EventProvider.getByStreams;
    repeat match goal with |- context [if ?b then _ else _] => destruct b end;
    apply order_sorted.
Qed.

Lemma query_order_created_witness :
  adjacent created_le (run_query (QStream "s2") no_options [ev_c; ev_b; ev_a]).
Proof.
  exact (@query_order_created merge_engine merge_engine_laws
           (QStream "s2") no_options [ev_c; ev_b; ev_a]).
Defined.

(** C3 fails as stated: two rows of different streams with the same
    [created] come back as stored, [id] "b" before [id] "a". *)
Lemma query_order_counterexample :
  ~ adjacent created_id_lt (run_query QAll no_options [ev_b; ev_a]).
Proof.
  vm_compute. intros [[Hlt | [_ Hlt]] _]; discriminate.
Qed.

(** ** Reads and the snapshot machinery *)

Lemma getById_found (i : string) (tbl : list EventRecord) :
  (exists x, In x tbl /\ id x = i) -> exists y, EventProvider.getById i tbl = Some y.
Proof.
  intros (x & Hin & Hid). unfold EventProvider.getById.
  destruct (filter _ tbl) as [|y l] eqn:E; [|eauto].
  assert (Hx : In x (filter (fun r => String.eqb (id r) i) tbl)).
  { apply filter_In. rewrite Hid, String.eqb_refl. auto. }
  rewrite E in Hx. destruct Hx.
Qed.

Lemma getById_absent (i : string) (tbl : list EventRecord) :
  (forall x, In x tbl -> id x <> i) -> EventProvider.getById i tbl = None.
Proof.
  intros Hn. unfold EventProvider.getById.
  destruct (filter _ tbl) as [|y l] eqn:E; [reflexivity|].
  assert (Hy : In y (filter (fun r => String.eqb (id r) i) tbl)) by (rewrite E; left; auto).
  apply filter_In in Hy as [Hin Heq]. apply String.eqb_eq in Heq.
  exfalso. exact (Hn y Hin Heq).
Qed.

Lemma add_log_app (st : Store) (l1 l2 : list Effect) :
  add_log (add_log st l1) l2 = add_log st (l1 ++ l2).
Proof. unfold add_log. simpl. rewrite app_assoc. reflexivity. Qed.

Lemma tell_add_log (e : Effect) (st : Store) : tell e st = (Ok tt, add_log st [e]).
Proof. reflexivity. Qed.

(** C8: when the id is present, [getEventStatus] answers
    [{exists: true, outdated: true}] after the id lookup alone; the
    outdatedness probe runs only when the id is absent. *)
Theorem getEventStatus_spec (r : EventRecord) (st : Store) :
  ((exists x, In x (events_tbl st) /\ id x = id r) ->
   getEventStatus r st = (Ok (mkStatus true true), add_log st [QGetById (id r)]))
  /\ ((forall x, In x (events_tbl st) -> id x <> id r) ->
      getEventStatus r st
      = (Ok (mkStatus false (EventProvider.checkOutdated (events_tbl st) r)),
         add_log st [QGetById (id r); QCheckOutdated r])).
Proof.
  split.
  - intros Hex. destruct (getById_found _ _ Hex) as [y Hy].
    unfold getEventStatus, events_getById, bind, read, tell.
    cbn -[EventProvider.getById]. rewrite Hy. reflexivity.
  - intros Hn. pose proof (getById_absent _ _ Hn) as Hy.
    unfold getEventStatus, events_getById, events_checkOutdated, bind, read, tell.
    cbn -[EventProvider.getById EventProvider.checkOutdated]. rewrite Hy.
    unfold add_log. simpl. rewrite <- app_assoc. reflexivity.
Qed.

Lemma getSnapshot_read (key : string) (rd : Reducer) (st : Store) :
  getSnapshot key rd st
  = (Ok (option_map (fun s => (snap_cursor s, snap_state s))
                    (find (snap_is (name rd) key) (snapshots_tbl st))), st).
Proof.
  unfold getSnapshot, bind, snapshots_getByStream.
  destruct (find _ _); reflexivity.
Qed.

Lemma reducer_events_read `{Engine} (key : string) (rd : Reducer) (c : option string)
  (st : Store) :
  exists l, reducer_events key rd c st = (Ok l, st).
Proof.
  unfold reducer_events, getEventsByStream, getEventsByContext, read, bind,
    contexts_getByKey, ret.
  destruct (rtype rd); [eauto|].
  destruct (map _ _); eauto.
Qed.

Lemma find_upsert_other (a n k c : string) (s : json) (l : list Snapshot) :
  a <> n ->
  find (snap_is a k) (filter (fun x => negb (snap_is n k x)) l ++ [mkSnapshot n k c s])
  = find (snap_is a k) l.
Proof.
  intros Hne. induction l as [|x l IH].
  - simpl. unfold snap_is. simpl.
    destruct (String.eqb_spec n a); [congruence | reflexivity].
  - simpl. destruct (snap_is a k x) eqn:Ha.
    + assert (Hn : snap_is n k x = false).
      { unfold snap_is in *. apply andb_true_iff in Ha as [Ha _].
        apply String.eqb_eq in Ha. rewrite Ha.
        destruct (String.eqb_spec a n); [congruence | reflexivity]. }
      rewrite Hn. simpl. rewrite Ha. reflexivity.
    + destruct (snap_is n k x); simpl; [exact IH|]. rewrite Ha. exact IH.
Qed.

(** Postgres [reduce] when nothing follows the snapshot cursor: the
    snapshot state if there is a snapshot, [undefined] otherwise. *)
Lemma reduce_no_new_events `{Engine} (cfg : Config) (gname : option string)
  (key : string) (rd : Reducer) (st : Store)
  (Hev : reducer_events key rd
           (option_map snap_cursor (find (snap_is (name rd) key) (snapshots_tbl st))) st
         = (Ok [], st)) :
  reduce cfg gname key rd st
  = (Ok (option_map snap_state (find (snap_is (name rd) key) (snapshots_tbl st))), st).
Proof.
  unfold reduce, bind. rewrite getSnapshot_read.
  destruct (find _ _) as [sn|]; simpl in *; rewrite Hev; reflexivity.
Qed.

(** ** C1 *)

(** C1 (the code falls short of it): with [snapshot: "auto"], the
    snapshot write of [reduce] is keyed by the free identifier [name]:
    whatever its global binding, unless it happens to equal the reducer's
    name, the row [(reducer.name, key)] is never written. *)
Theorem reduce_auto_snapshot_key `{Engine} (cfg : Config) (gname : option string)
  (key : string) (rd : Reducer) (st : Store)
  (Hauto : snapshot_mode cfg = Auto) (Hname : gname <> Some (name rd)) :
  find (snap_is (name rd) key) (snapshots_tbl (snd (reduce cfg gname key rd st)))
  = find (snap_is (name rd) key) (snapshots_tbl st).
Proof.
  unfold reduce, bind at 1. rewrite getSnapshot_read. cbv beta iota.
  unfold bind at 1.
  match goal with |- context [reducer_events ?k ?r ?c st] =>
    destruct (reducer_events_read k r c st) as [l Hl]; rewrite Hl end.
  destruct l as [|e l].
  - destruct (option_map (fun s : Snapshot => (snap_cursor s, snap_state s))
                (find (snap_is (name rd) key) (snapshots_tbl st))) as [[? ?]|];
      reflexivity.
  - rewrite Hauto. unfold bind, resolve_global.
    destruct gname as [n|]; [|reflexivity].
    unfold snapshots_insert, tell. simpl.
    apply find_upsert_other. congruence.
Qed.

Lemma reduce_auto_snapshot_key_witness :
  snapshot_mode (sample_config (Some Auto)) = Auto /\ Some "" <> Some (name counter) /\
  find (snap_is "counter" "s2")
    (snapshots_tbl (snd (reduce (sample_config (Some Auto)) (Some "") "s2" counter
                                (store_of [ev_a; ev_c] [])))) = None.
Proof.
  split; [reflexivity|]. split; [discriminate|].
  exact (reduce_auto_snapshot_key (sample_config (Some Auto)) (Some "") "s2" counter
           (store_of [ev_a; ev_c] []) eq_refl ltac:(discriminate)).
Defined.

(** ** C2 *)

(** C2 (the SQLite store falls short of it): after a snapshot of
    [counter] at the last event of "s2", the Postgres [reduce] returns the
    snapshot state, the SQLite [reduce] returns [undefined]. *)
Theorem sqlite_reduce_drops_snapshot :
  sqlite_reduce "s2" counter (store_of [ev_a; ev_c] [snap_counter_s2])
  = (Ok None, store_of [ev_a; ev_c] [snap_counter_s2])
  /\ reduce (sample_config None) None "s2" counter (store_of [ev_a; ev_c] [snap_counter_s2])
     = (Ok (Some (JNum 2)), store_of [ev_a; ev_c] [snap_counter_s2]).
Proof. split; reflexivity. Qed.

(** ** C10 *)

(** C10: when the read of [createSnapshot] finds no events, it resolves
    without touching the store; an existing snapshot row stays as it was. *)
Theorem createSnapshot_no_events `{Engine} (key : string) (rd : Reducer) (st : Store)
  (Hev : reducer_events key rd None st = (Ok [], st)) :
  createSnapshot key rd st = (Ok tt, st).
Proof.
  unfold createSnapshot, bind. rewrite Hev. reflexivity.
Qed.

Lemma createSnapshot_no_events_witness :
  reducer_events "s9" counter None (store_of [ev_a; ev_c] [snap_counter_s2])
    = (Ok [], store_of [ev_a; ev_c] [snap_counter_s2])
  /\ createSnapshot "s9" counter (store_of [ev_a; ev_c] [snap_counter_s2])
     = (Ok tt, store_of [ev_a; ev_c] [snap_counter_s2]).
Proof.
  split; [reflexivity|].
  apply createSnapshot_no_events. reflexivity.
Defined.

(** ** Fan-out and replay *)

Lemma contexts_handle_frame (o : ContextOp) (st : Store) :
  exists c, contexts_handle o st = (Ok tt, set_contexts st c).
Proof.
  unfold contexts_handle.
  destruct (op o); [destruct (existsb _ _)|]; eauto.
  exists (contexts_tbl st). destruct st; reflexivity.
Qed.

Lemma for_contexts_handle_frame (ops : list ContextOp) (st : Store) :
  exists c, for_ ops contexts_handle st = (Ok tt, set_contexts st c).
Proof.
  revert st. induction ops as [|o ops IH]; intros st; simpl.
  - exists (contexts_tbl st). destruct st; reflexivity.
  - unfold bind. destruct (contexts_handle_frame o st) as [c1 ->].
    destruct (IH (set_contexts st c1)) as [c2 ->]. exists c2. reflexivity.
Qed.

Lemma contextor_push_frame (cfg : Config) (e : EventRecord) (st : Store) :
  exists c, contextor_push cfg e st = (Ok tt, set_contexts (add_log st [EContext e]) c).
Proof.
  unfold contextor_push, bind. rewrite tell_add_log.
  apply for_contexts_handle_frame.
Qed.

(** One [Promise.all] of contextor and projector, in either interleaving. *)
Lemma promise_all2_frame (cfg : Config) (b : bool) (e : EventRecord) (h o : bool)
  (st : Store) :
  exists c, promise_all2 b (contextor_push cfg e) (project e h o) st
            = (Ok tt, set_contexts (add_log st (if b then [EContext e; EProject e h o]
                                                 else [EProject e h o; EContext e])) c).
Proof.
  unfold promise_all2, bind, project. destruct b.
  - destruct (contextor_push_frame cfg e st) as [c ->].
    rewrite tell_add_log. exists c.
    unfold add_log, set_contexts. simpl. rewrite <- app_assoc. reflexivity.
  - rewrite tell_add_log.
    destruct (contextor_push_frame cfg e (add_log st [EProject e h o])) as [c ->].
    exists c. unfold add_log, set_contexts. simpl. rewrite <- app_assoc. reflexivity.
Qed.

Lemma replay_loop_frame (cfg : Config) (sched : nat -> bool) (evs : list EventRecord) :
  forall (i : nat) (st : Store),
  exists c, replay_loop cfg sched i evs st
            = (Ok tt, set_contexts (add_log st (replay_trace sched i evs)) c).
Proof.
  induction evs as [|e es IH]; intros i st; simpl.
  - exists (contexts_tbl st). destruct st. unfold add_log. simpl.
    rewrite app_nil_r. reflexivity.
  - unfold bind. destruct (promise_all2_frame cfg (sched i) e true false st) as [c1 ->].
    change (if sched i then [EContext e; EProject e true false]
            else [EProject e true false; EContext e]) with (replay_block (sched i) e).
    destruct (IH (S i) (set_contexts (add_log st (replay_block (sched i) e)) c1))
      as [c2 ->].
    exists c2. unfold add_log, set_contexts. simpl. rewrite app_assoc. reflexivity.
Qed.

Lemma projections_replay_trace (sched : nat -> bool) (evs : list EventRecord) :
  forall i, projections (replay_trace sched i evs) = map (fun e => (e, true, false)) evs.
Proof.
  induction evs as [|e es IH]; intros i; simpl; [reflexivity|].
  unfold projections in *. rewrite flat_map_app, IH.
  destruct (sched i); reflexivity.
Qed.

(** C5: [replayEvents(stream?)] reads the record set and, record by record
    in the order read, runs contextor and projector with
    [{hydrated: true, outdated: false}], both finished before the next
    record, whatever the interleaving inside each [Promise.all]; the events
    (and snapshots) tables are left as they were. *)
Theorem replayEvents_spec `{Engine} (cfg : Config) (sched : nat -> bool)
  (s : option string) (st : Store) :
  (exists c,
     replayEvents cfg sched s st
     = (Ok tt, mkStore (events_tbl st) c (snapshots_tbl st)
                       (log st ++ replay_trace sched 0 (replay_source s (events_tbl st)))))
  /\ projections (replay_trace sched 0 (replay_source s (events_tbl st)))
     = map (fun e => (e, true, false)) (replay_source s (events_tbl st)).
Proof.
  split; [|apply projections_replay_trace].
  unfold replayEvents, bind, read.
  destruct (replay_loop_frame cfg sched (replay_source s (events_tbl st)) 0 st) as [c Hc].
  exists c. destruct s; exact Hc.
Qed.

(** ** The trace of the write path *)

Section Appends.
Variable P : Effect -> Prop.

Lemma appends_ret {A} (a : A) : appends P (ret a).
Proof. intros st. exists []. rewrite app_nil_r. auto. Qed.

Lemma appends_throw {A} (e : Error) : appends P (@throw A e).
Proof. intros st. exists []. rewrite app_nil_r. auto. Qed.

Lemma appends_read {A} (f : list EventRecord -> A) : appends P (read f).
Proof. intros st. exists []. rewrite app_nil_r. auto. Qed.

Lemma appends_tell (e : Effect) : P e -> appends P (tell e).
Proof. intros He st. exists [e]. auto. Qed.

Lemma appends_bind {A B} (m : M A) (k : A -> M B) :
  appends P m -> (forall a, appends P (k a)) -> appends P (bind m k).
Proof.
  intros Hm Hk st. unfold bind.
  destruct (Hm st) as (l1 & H1 & F1).
  destruct (m st) as [[a|e] st1]; simpl in H1.
  - destruct (Hk a st1) as (l2 & H2 & F2). exists (l1 ++ l2).
    rewrite H2, H1, app_assoc. split; [reflexivity|]. apply Forall_app; auto.
  - exists l1. auto.
Qed.

Lemma appends_for {A} (xs : list A) (f : A -> M unit) :
  (forall x, appends P (f x)) -> appends P (for_ xs f).
Proof.
  intros Hf. induction xs as [|x xs IH]; simpl.
  - apply appends_ret.
  - apply appends_bind; auto.
Qed.

Lemma appends_contexts_handle (o : ContextOp) : appends P (contexts_handle o).
Proof.
  intros st. destruct (contexts_handle_frame o st) as [c ->].
  exists []. rewrite app_nil_r. auto.
Qed.

Lemma appends_snapshots_insert (n k c : string) (s : json) :
  P (ESnapshot n k) -> appends P (snapshots_insert n k c s).
Proof. intros He st. exists [ESnapshot n k]. auto. Qed.

Lemma appends_transaction {A} (body : M A) :
  appends P body -> P ECommit -> P ERollback -> appends P (transaction body).
Proof.
  intros Hb Hc Hr st. unfold transaction.
  destruct (Hb st) as (l & Hl & F).
  destruct (body st) as [[a|e] st1]; simpl in *.
  - exists (l ++ [ECommit]). rewrite Hl, app_assoc.
    split; [reflexivity|]. apply Forall_app; auto.
  - exists (l ++ [ERollback]). rewrite Hl, app_assoc.
    split; [reflexivity|]. apply Forall_app; auto.
Qed.

End Appends.

Lemma events_insert_log (r : EventRecord) (st : Store) :
  match events_insert r st with
  | (Ok _, st') => log st' = log st ++ [EInsert r]
  | (Throw _, st') => st' = st
  end.
Proof.
  unfold events_insert.
  destruct (existsb _ _); [reflexivity|].
  destruct (existsb _ _); reflexivity.
Qed.

Lemma insert_retry_S (cfg : Config) (n : nat) (r : EventRecord) (st : Store) :
  insert_retry cfg (S n) r st
  = match events_insert r st with
    | (Ok _, st') => (Ok (Inserted r), st')
    | (Throw (UniqueViolation IdIndex), st') => (Ok DuplicateId, st')
    | (Throw (UniqueViolation StreamCreatedIndex), st') =>
        insert_retry cfg n (with_created r (bump_created cfg (created r))) st'
    | (Throw e, st') => (Throw e, st')
    end.
Proof. reflexivity. Qed.

Lemma insert_retry_log (cfg : Config) (n : nat) :
  forall (r : EventRecord) (st : Store),
  match insert_retry cfg n r st with
  | (Ok (Inserted r'), st') => log st' = log st ++ [EInsert r'] /\ id r' = id r
  | (Ok DuplicateId, st') => log st' = log st
  | (Throw _, st') => log st' = log st
  end.
Proof.
  induction n as [|n IH]; intros r st; [reflexivity|].
  rewrite insert_retry_S.
  pose proof (events_insert_log r st) as Hi.
  destruct (events_insert r st) as [[u|e] st1].
  - auto.
  - subst st1. destruct e as [| [|] | | |]; try reflexivity.
    specialize (IH (with_created r (bump_created cfg (created r))) st).
    destruct (insert_retry cfg n _ st) as [[[r'|]|e'] st2]; exact IH.
Qed.

Lemma appends_insert_retry (P : Effect -> Prop) (cfg : Config) (n : nat) (r : EventRecord) :
  (forall x, P (EInsert x)) -> appends P (insert_retry cfg n r).
Proof.
  intros HP st. pose proof (insert_retry_log cfg n r st) as H.
  destruct (insert_retry cfg n r st) as [[[r'|]|e] st'];
    simpl; [destruct H as [H _]; exists [EInsert r'] | exists [] | exists []];
    rewrite ?app_nil_r; auto.
Qed.

Ltac appends_tac :=
  repeat match goal with
  | |- appends _ (bind _ _) => apply appends_bind; [|intro]
  | |- appends _ (ret _) => apply appends_ret
  | |- appends _ (throw _) => apply appends_throw
  | |- appends _ (read _) => apply appends_read
  | |- appends _ (tell _) => apply appends_tell
  | |- appends _ (for_ _ _) => apply appends_for; intro
  | |- appends _ (contexts_handle _) => apply appends_contexts_handle
  | |- appends _ (snapshots_insert _ _ _ _) => apply appends_snapshots_insert
  | |- appends _ (insert_retry _ _ _) => apply appends_insert_retry; intro
  | |- appends _ (transaction _) => apply appends_transaction
  | |- appends _ (match ?x with _ => _ end) => destruct x
  | |- appends _ (if ?b then _ else _) => destruct b
  | |- appends _ _ =>
      progress unfold events_getById, events_checkOutdated, contextor_push, project,
        promise_all2, pushEventRecordUpdates, resolve_global, getSnapshot,
        snapshots_getByStream, reducer_events, getEventsByStream, getEventsByContext,
        contexts_getByKey
  | |- appends _ (fun _ => _) => intros ?st; exists []; rewrite app_nil_r; split; auto
  | |- _ => progress (simpl; auto)
  end.

Lemma appends_run (P : Effect -> Prop) {A} (m : M A) (st st' : Store) (res : Result A) :
  appends P m -> m st = (res, st') -> exists l, log st' = log st ++ l /\ Forall P l.
Proof.
  intros Hm Hrun. destruct (Hm st) as (l & Hl & F). rewrite Hrun in Hl. eauto.
Qed.

Lemma bind_inv {A B} (m : M A) (k : A -> M B) (st st' : Store) (b : B) :
  bind m k st = (Ok b, st') -> exists a st1, m st = (Ok a, st1) /\ k a st1 = (Ok b, st').
Proof.
  unfold bind. destruct (m st) as [[a|e] st1]; [eauto | discriminate].
Qed.

Lemma bind_ok_eq {A B} (m : M A) (k : A -> M B) (st : Store) (a : A) (st1 : Store) :
  m st = (Ok a, st1) -> bind m k st = k a st1.
Proof. intros E. unfold bind. rewrite E. reflexivity. Qed.

Lemma bind_throw_eq {A B} (m : M A) (k : A -> M B) (st : Store) (e : Error) (st1 : Store) :
  m st = (Throw e, st1) -> bind m k st = (Throw e, st1).
Proof. intros E. unfold bind. rewrite E. reflexivity. Qed.

Lemma inserts_of_none (l : list Effect) : Forall no_insert l -> inserts_of l = [].
Proof.
  induction 1 as [|e l He _ IH]; [reflexivity|].
  destruct e; simpl in *; tauto.
Qed.

Lemma inserts_of_app (l1 l2 : list Effect) :
  inserts_of (l1 ++ l2) = inserts_of l1 ++ inserts_of l2.
Proof. unfold inserts_of. apply flat_map_app. Qed.

Lemma appends_seq_no_fanout `{Engine} (cfg : Config) (rs : list (EventRecord * bool)) :
  appends no_fanout (pushEventRecordSequence cfg rs).
Proof.
  induction rs as [|[r h] rest IH]; simpl; appends_tac.
Qed.

(** The sequence body throws as soon as it meets a record that fails
    validation. *)
Lemma seq_throws_on_invalid `{Engine} (cfg : Config) (rs : list (EventRecord * bool)) :
  Exists (fun x => validate cfg (fst x) = false) rs ->
  forall st, exists e st', pushEventRecordSequence cfg rs st = (Throw e, st').
Proof.
  induction 1 as [[r h] rest Hv | [r h] rest Hex IH]; intros st; try simpl in Hv;
    cbn [pushEventRecordSequence]; rewrite (bind_ok_eq _ _ _ tt _ (tell_add_log _ _)).
  - rewrite Hv. eexists; eexists; reflexivity.
  - destruct (validate cfg r); [|eexists; eexists; reflexivity].
    destruct ((if h then ret false else events_checkOutdated r) (add_log st [EHydrated r h]))
      as [[o|e] st2] eqn:E2; [|rewrite (bind_throw_eq _ _ _ _ _ E2); eauto].
    rewrite (bind_ok_eq _ _ _ _ _ E2).
    destruct (insert_retry cfg max_insert_attempts r st2) as [[ins|e] st3] eqn:E3;
      [|rewrite (bind_throw_eq _ _ _ _ _ E3); eauto].
    rewrite (bind_ok_eq _ _ _ _ _ E3).
    destruct (IH st3) as (e & st4 & E4). rewrite (bind_throw_eq _ _ _ _ _ E4). eauto.
Qed.

(** On success, the sequence body inserted exactly the records it returns,
    in the order of its input. *)
Lemma seq_ok `{Engine} (cfg : Config) (rs : list (EventRecord * bool)) :
  forall st ins st',
  pushEventRecordSequence cfg rs st = (Ok ins, st') ->
  exists l, log st' = log st ++ l /\ map fst3 ins = inserts_of l
            /\ subseq (map id (map fst3 ins)) (map (fun x => id (fst x)) rs).
Proof.
  induction rs as [|[r h] rest IH]; intros st ins st' Hrun.
  - simpl in Hrun. injection Hrun as <- <-. exists [].
    rewrite app_nil_r. repeat split; constructor.
  - cbn [pushEventRecordSequence] in Hrun.
    apply bind_inv in Hrun as (u & st1 & H1 & Hrun).
    unfold tell in H1. injection H1 as _ <-.
    destruct (validate cfg r) eqn:Hv; [|discriminate].
    apply bind_inv in Hrun as (o & st2 & H2 & Hrun).
    assert (A2 : appends no_insert (if h then ret false else events_checkOutdated r))
      by (destruct h; appends_tac).
    destruct (appends_run _ _ _ _ _ A2 H2) as (l2 & L2 & F2).
    apply bind_inv in Hrun as (res & st3 & H3 & Hrun).
    pose proof (insert_retry_log cfg max_insert_attempts r st2) as L3.
    rewrite H3 in L3.
    apply bind_inv in Hrun as (tl & st4 & H4 & Hrun).
    destruct (IH _ _ _ H4) as (l4 & L4 & M4 & S4).
    simpl in L2.
    destruct res as [r'|]; injection Hrun as <- <-.
    + destruct L3 as [L3 Hid].
      exists ([EHydrated r h] ++ l2 ++ [EInsert r'] ++ l4).
      rewrite L4, L3, L2, !app_assoc. split; [reflexivity|].
      rewrite !inserts_of_app, (inserts_of_none _ F2). simpl.
      split; [rewrite M4; reflexivity|]. rewrite Hid. constructor. exact S4.
    + exists ([EHydrated r h] ++ l2 ++ l4).
      rewrite L4, L3, L2, !app_assoc. split; [reflexivity|].
      rewrite !inserts_of_app, (inserts_of_none _ F2). simpl.
      split; [exact M4|]. constructor. exact S4.
Qed.

Lemma pushEventRecordUpdates_run (cfg : Config) (r : EventRecord) (h o : bool) (st : Store) :
  exists c, pushEventRecordUpdates cfg r h o st
            = (Ok tt, set_contexts (add_log st (fanout_trace (r, h, o))) c).
Proof.
  unfold pushEventRecordUpdates, bind.
  destruct (promise_all2_frame cfg true r h o st) as [c ->].
  exists c. unfold tell, add_log, set_contexts. simpl. rewrite <- app_assoc. reflexivity.
Qed.

Lemma for_fanout_run (f : EventRecord * bool * bool -> M unit)
  (Hf : forall x st, exists c, f x st = (Ok tt, set_contexts (add_log st (fanout_trace x)) c))
  (ins : list (EventRecord * bool * bool)) :
  forall st, exists c, for_ ins f st
                       = (Ok tt, set_contexts (add_log st (flat_map fanout_trace ins)) c).
Proof.
  induction ins as [|x ins IH]; intros st; simpl.
  - exists (contexts_tbl st). destruct st. unfold add_log. simpl.
    rewrite app_nil_r. reflexivity.
  - unfold bind. destruct (Hf x st) as [c1 ->].
    destruct (IH (set_contexts (add_log st (fanout_trace x)) c1)) as [c2 ->].
    exists c2. unfold add_log, set_contexts. simpl. rewrite app_assoc. reflexivity.
Qed.

(** C4: [pushEventSequence(records)] runs validation and insertion of every
    record in one transaction.  If some record fails validation the call
    throws; whenever it throws, the events table is the one it started
    from (nothing inserted) and no fan-out happened.  When it resolves, the
    trace is the body's effects (no fan-out among them), the commit, and
    then the fan-out of exactly the records the body inserted, one after
    the other, in the order of the input list. *)
Theorem pushEventSequence_atomic `{Engine} (cfg : Config)
  (records : list (EventRecord * option bool)) (st : Store) :
  let '(res, st') := pushEventSequence cfg records st in
  (Exists (fun x => validate cfg (fst x) = false) records -> exists e, res = Throw e)
  /\ (forall e, res = Throw e ->
        events_tbl st' = events_tbl st
        /\ exists l, log st' = log st ++ l /\ Forall no_fanout l)
  /\ (res = Ok tt ->
        exists l ins,
          log st' = log st ++ l ++ [ECommit] ++ flat_map fanout_trace ins
          /\ Forall no_fanout l
          /\ map fst3 ins = inserts_of l
          /\ subseq (map id (map fst3 ins)) (map (fun x => id (fst x)) records)).
Proof.
  unfold pushEventSequence.
  pose proof (appends_seq_no_fanout cfg (map default_hydrated records)) as A.
  destruct (pushEventRecordSequence cfg (map default_hydrated records) st)
    as [[ins|e] st1] eqn:Hb.
  - rewrite (bind_ok_eq _ _ st ins (add_log st1 [ECommit]))
      by (unfold transaction; rewrite Hb; reflexivity).
    destruct (for_fanout_run (fun '(r, h, s) => pushEventRecordUpdates cfg r h s)
                ltac:(intros [[r h] o] st0; apply pushEventRecordUpdates_run)
                ins (add_log st1 [ECommit])) as [c ->].
    destruct (seq_ok cfg _ _ _ _ Hb) as (l & L & Mi & Si).
    destruct (appends_run _ _ _ _ _ A Hb) as (l' & L' & F').
    assert (El : l' = l) by (apply (app_inv_head (log st)); congruence).
    subst l'.
    split; [|split].
    + intros Hex. exfalso.
      assert (Hex' : Exists (fun x => validate cfg (fst x) = false)
                       (map default_hydrated records))
        by (apply Exists_map; exact Hex).
      destruct (seq_throws_on_invalid cfg _ Hex' st) as (e & st2 & E).
      congruence.
    + intros e He. discriminate.
    + intros _. exists l, ins.
      split; [|split; [exact F'|split; [exact Mi|]]].
      * unfold set_contexts, add_log. simpl. rewrite L, <- !app_assoc. reflexivity.
      * rewrite map_map. rewrite !map_map in Si. exact Si.
  - rewrite (bind_throw_eq _ _ st e
               (mkStore (events_tbl st) (contexts_tbl st) (snapshots_tbl st)
                        (log st1 ++ [ERollback])))
      by (unfold transaction; rewrite Hb; reflexivity).
    destruct (appends_run _ _ _ _ _ A Hb) as (l & L & F).
    split; [|split].
    + intros _. eauto.
    + intros e' _. split; [reflexivity|].
      exists (l ++ [ERollback]). simpl. rewrite L, <- app_assoc.
      split; [reflexivity|]. apply Forall_app. split; [exact F|].
      repeat constructor.
    + intros Hok. discriminate.
Qed.

Lemma appends_seq_hydrated `{Engine} (cfg : Config) (rs : list (EventRecord * bool)) :
  Forall (fun x => snd x = true) rs -> appends hydrated_path (pushEventRecordSequence cfg rs).
Proof.
  induction 1 as [|[r h] rest Hh _ IH]; simpl in *; [appends_tac|subst h; appends_tac].
Qed.

Lemma appends_push_true `{Engine} (cfg : Config) (r : EventRecord) :
  appends hydrated_path (pushEventRecord cfg r true).
Proof. unfold pushEventRecord. appends_tac. Qed.

Lemma appends_seq_any `{Engine} (cfg : Config) (rs : list (EventRecord * bool)) :
  appends (fun _ => True) (pushEventRecordSequence cfg rs).
Proof. induction rs as [|[r h] rest IH]; simpl; appends_tac. Qed.

Lemma appends_weaken (P Q : Effect -> Prop) {A} (m : M A) :
  appends P m -> (forall e, P e -> Q e) -> appends Q m.
Proof.
  intros Hm HPQ st. destruct (Hm st) as (l & L & F).
  exists l. split; [exact L|]. exact (Forall_impl _ HPQ F).
Qed.

Lemma appends_seq_flags `{Engine} (cfg : Config) (records : list (EventRecord * option bool)) :
  forall rs, (forall r h, In (r, h) rs -> In (r, h) (map default_hydrated records)) ->
  appends (flag_marks records) (pushEventRecordSequence cfg rs).
Proof.
  induction rs as [|[r h] rest IH]; intros Hin; simpl; [appends_tac|].
  assert (Hr : exists f, In (r, f) records /\ h = match f with None => true | Some b => b end).
  { destruct (proj1 (in_map_iff _ _ _) (Hin r h (or_introl eq_refl))) as ([r' f] & Hx & Hf).
    unfold default_hydrated in Hx. simpl in Hx. injection Hx as -> <-. eauto. }
  specialize (IH (fun r' h' H' => Hin r' h' (or_intror H'))).
  apply appends_bind; [apply appends_tell; exact Hr|intros []].
  destruct (validate cfg r); [|appends_tac].
  apply appends_bind; [|intros outdated; appends_tac].
  destruct h; [appends_tac|].
  unfold events_checkOutdated. apply appends_bind; [|intros; appends_tac].
  apply appends_tell. simpl.
  destruct Hr as ([b|] & Hf & Hb); [subst b; exact Hf|discriminate].
Qed.

Lemma appends_sequence_flags `{Engine} (cfg : Config)
  (records : list (EventRecord * option bool)) :
  appends (flag_marks records) (pushEventSequence cfg records).
Proof.
  unfold pushEventSequence. apply appends_bind.
  - apply appends_transaction; [|exact I|exact I].
    apply appends_seq_flags. auto.
  - intros ins. apply appends_for. intros [[r h] o]. appends_tac.
Qed.

Lemma push_first_hydrated `{Engine} (cfg : Config) (r : EventRecord) (h : bool) (st : Store) :
  exists l, log (snd (pushEventRecord cfg r h st)) = log st ++ EHydrated r h :: l.
Proof.
  unfold pushEventRecord. rewrite (bind_ok_eq _ _ _ tt _ (tell_add_log _ _)).
  match goal with |- context [snd (?m (add_log st _))] =>
    assert (A : appends (fun _ => True) m) by appends_tac end.
  destruct (A (add_log st [EHydrated r h])) as (l & L & _).
  exists l. rewrite L. simpl. rewrite <- app_assoc. reflexivity.
Qed.

Lemma seq_first_hydrated `{Engine} (cfg : Config) (r : EventRecord) (h : bool)
  (rest : list (EventRecord * bool)) (st : Store) :
  exists l, log (snd (pushEventRecordSequence cfg ((r, h) :: rest) st))
            = log st ++ EHydrated r h :: l.
Proof.
  cbn [pushEventRecordSequence]. rewrite (bind_ok_eq _ _ _ tt _ (tell_add_log _ _)).
  pose proof (appends_seq_any cfg rest).
  match goal with |- context [snd (?m (add_log st _))] =>
    assert (A : appends (fun _ => True) m) by appends_tac end.
  destruct (A (add_log st [EHydrated r h])) as (l & L & _).
  exists l. rewrite L. simpl. rewrite <- app_assoc. reflexivity.
Qed.

Lemma sequence_first_hydrated `{Engine} (cfg : Config) (r : EventRecord) (f : option bool)
  (rest : list (EventRecord * option bool)) (st : Store) :
  exists l, log (snd (pushEventSequence cfg ((r, f) :: rest) st))
            = log st ++ EHydrated r (match f with None => true | Some b => b end) :: l.
Proof.
  unfold pushEventSequence. cbn [map].
  destruct (seq_first_hydrated cfg r (match f with None => true | Some b => b end)
              (map default_hydrated rest) st) as (l & L).
  unfold default_hydrated at 1. cbn [fst snd].
  destruct (pushEventRecordSequence cfg
              ((r, match f with None => true | Some b => b end) :: map default_hydrated rest) st)
    as [[ins|e] st1] eqn:Hb; simpl in L.
  - rewrite (bind_ok_eq _ _ st ins (add_log st1 [ECommit]))
      by (unfold transaction; rewrite Hb; reflexivity).
    destruct (for_fanout_run (fun '(r, h, s) => pushEventRecordUpdates cfg r h s)
                ltac:(intros [[r0 h] o] st0; apply pushEventRecordUpdates_run)
                ins (add_log st1 [ECommit])) as [c ->].
    exists (l ++ [ECommit] ++ flat_map fanout_trace ins).
    unfold set_contexts, add_log. simpl. rewrite L. rewrite <- !app_assoc. reflexivity.
  - rewrite (bind_throw_eq _ _ st e
               (mkStore (events_tbl st) (contexts_tbl st) (snapshots_tbl st)
                        (log st1 ++ [ERollback])))
      by (unfold transaction; rewrite Hb; reflexivity).
    exists (l ++ [ERollback]). simpl. rewrite L. rewrite <- !app_assoc. reflexivity.
Qed.

(** C9: [pushEvent(record)] without its flag runs the locally originated
    path: the record is marked hydrated and the outdatedness probe
    ([events.checkOutdated]) is never issued.  [pushEventSequence] turns
    every unspecified flag into true: a sequence without flags issues no
    probe, and in any sequence, mixed ones included, each record is marked
    with its flag (true when unspecified) and only records given false are
    probed.  [addEvent] and [addEventSequence] pass false: the first record
    they push is marked as not hydrated, and no record they push is marked
    hydrated. *)
Theorem hydrated_defaults `{Engine} (cfg : Config) :
  (forall r, appends hydrated_path (pushEvent cfg r None))
  /\ (forall records, Forall (fun x => snd x = None) records ->
        Forall (fun x => snd x = true) (map default_hydrated records)
        /\ appends hydrated_path (pushEventSequence cfg records))
  /\ (forall e st, exists l, log (snd (addEvent cfg e st))
                             = log st ++ EHydrated (createEventRecord cfg e) false :: l)
  /\ (forall e es st, exists l, log (snd (addEventSequence cfg (e :: es) st))
                                = log st ++ EHydrated (createEventRecord cfg e) false :: l)
  /\ (forall records, appends (flag_marks records) (pushEventSequence cfg records))
  /\ (forall e, appends marks_false (addEvent cfg e))
  /\ (forall es, appends marks_false (addEventSequence cfg es)).
Proof.
  split; [|split; [|split; [|split; [|split; [|split]]]]].
  - intros r. apply appends_push_true.
  - intros records Hn.
    assert (Ht : Forall (fun x => snd x = true) (map default_hydrated records)).
    { apply Forall_map. refine (Forall_impl _ _ Hn).
      intros [r f] Hf. simpl in *. subst f. reflexivity. }
    split; [exact Ht|].
    unfold pushEventSequence. apply appends_bind.
    + apply appends_transaction; [apply appends_seq_hydrated; exact Ht | exact I | exact I].
    + intros ins. apply appends_for. intros [[r h] o]. appends_tac.
  - intros e st. apply push_first_hydrated.
  - intros e es st. apply (sequence_first_hydrated cfg _ (Some false)).
  - apply appends_sequence_flags.
  - intros e. unfold addEvent, pushEvent, pushEventRecord. appends_tac.
  - intros es. unfold addEventSequence.
    apply (appends_weaken (flag_marks (map (fun e => (createEventRecord cfg e, Some false)) es))).
    + apply appends_sequence_flags.
    + intros [] Hx; simpl in *; auto.
      destruct Hx as (f & Hin & ->). apply in_map_iff in Hin as (e & He & _).
      injection He as _ <-. exact I.
Qed.

Lemma hydrated_defaults_witness :
  Forall (fun x => snd x = None) [(ev_a, @None bool); (ev_c, @None bool)]
  /\ Forall (fun x => snd x = true)
       (map default_hydrated [(ev_a, @None bool); (ev_c, @None bool)]).
Proof.
  split; [repeat constructor|].
  apply (proj1 (proj1 (proj2 (hydrated_defaults (sample_config None)))
                 [(ev_a, @None bool); (ev_c, @None bool)] ltac:(repeat constructor))).
Defined.

(** The atomicity scenario of the spec: a sequence of three records whose
    second fails validation inserts nothing, projects nothing, and reports
    one error. *)
Example sequence_second_invalid :
  let '(res, st') :=
    pushEventSequence (sample_config None)
      [(ev "n1" "s3" "t" "2024-01-05T00:00:00.000Z", None);
       (ev "n2" "s3" "" "2024-01-06T00:00:00.000Z", None);
       (ev "n3" "s3" "t" "2024-01-07T00:00:00.000Z", None)] (store_of [] []) in
  res = Throw (ValidationError "n2") /\ events_tbl st' = [] /\ projections (log st') = []
  /\ length (filter (fun e => match e with EHookError _ => true | _ => false end) (log st')) = 1.
Proof. vm_compute. repeat split. Qed.

(* ================================================================== *)
(** * Further properties of the provider and the façade *)

(** ** The order on strings *)

Lemma string_compare_OT (a b : string) :
  String.compare a b = OrdersEx.String_as_OT.compare a b.
Proof.
  reflexivity.
Qed.

Lemma string_lt_trans (a b c : string) :
  String.compare a b = Lt -> String.compare b c = Lt -> String.compare a c = Lt.
Proof.
  rewrite !string_compare_OT. intros H1 H2.
  exact (@StrictOrder_Transitive _ _ OrdersEx.String_as_OT.lt_strorder a b c H1 H2).
Qed.

Lemma string_leb_trans (a b c : string) :
  String.leb a b = true -> String.leb b c = true -> String.leb a c = true.
Proof.
  unfold String.leb.
  destruct (String.compare a b) eqn:E1; try discriminate; intros _.
  - apply String.compare_eq_iff in E1. subst. exact (fun H => H).
  - destruct (String.compare b c) eqn:E2; try discriminate; intros _.
    + apply String.compare_eq_iff in E2. subst. rewrite E1. reflexivity.
    + rewrite (string_lt_trans _ _ _ E1 E2). reflexivity.
Qed.

Lemma string_ltb_leb (a b : string) :
  String.ltb a b = true -> String.leb b a = false.
Proof.
  unfold String.ltb, String.leb. rewrite (String.compare_antisym b a).
  destruct (String.compare a b); simpl; congruence.
Qed.

Lemma string_leb_refl (a : string) : String.leb a a = true.
Proof. destruct (String.leb_total a a); assumption. Qed.

Lemma last_In {A} (l : list A) (d : A) : l <> [] -> In (last l d) l.
Proof.
  induction l as [|a l IH]; [congruence|]. intros _.
  destruct l as [|b l']; [left; reflexivity|].
  right. apply IH. discriminate.
Qed.

(** In a list sorted on [created], the last row has the greatest
    [created]. *)
Lemma sorted_le_last (l : list EventRecord) (d : EventRecord) :
  Sorted created_le l -> forall x, In x l -> created_le x (last l d).
Proof.
  intros Hs. apply Sorted_StronglySorted in Hs;
    [|intros a b c; unfold created_le; apply string_leb_trans].
  induction Hs as [|a l Hs IH Hall]; [intros x []|].
  intros x [<- | Hx].
  - destruct l as [|b l'].
    + apply string_leb_refl.
    + change (last (a :: b :: l') d) with (last (b :: l') d).
      rewrite Forall_forall in Hall. apply Hall, last_In. discriminate.
  - destruct l as [|b l']; [destruct Hx|].
    change (last (a :: b :: l') d) with (last (b :: l') d). apply IH, Hx.
Qed.

(** ** Conditions and rows *)

Lemma filter_all_true {A} (f : A -> bool) (l : list A) :
  (forall x, f x = true) -> filter f l = l.
Proof. intros Hf. induction l as [|a l IH]; simpl; [|rewrite Hf, IH]; reflexivity. Qed.

Lemma filter_all_false {A} (f : A -> bool) (l : list A) :
  (forall x, f x = false) -> filter f l = [].
Proof. intros Hf. induction l as [|a l IH]; simpl; [|rewrite Hf, IH]; reflexivity. Qed.

Lemma withFilters_admit (o : EventReadOptions) (fs : list Cond) (x : EventRecord) :
  and_ (EventProvider.withFilters o fs) x = and_ fs x && options_admit o x.
Proof.
  rewrite withFilters_app. unfold and_. rewrite forallb_app. f_equal.
  unfold EventProvider.withFilters, options_admit, EventProvider.withTypes,
    EventProvider.withCursor, inArray.
  destruct (filter_types o) as [ts|], (cursor o) as [[|ch c]|], (direction o) as [[|]|];
    simpl; rewrite ?andb_true_r; reflexivity.
Qed.

Lemma admit_of_nil (o : EventReadOptions) (x : EventRecord) :
  EventProvider.withFilters o [] = [] -> options_admit o x = true.
Proof.
  intros E. pose proof (withFilters_admit o [] x) as H.
  rewrite E in H. simpl in H. symmetry. exact H.
Qed.

Lemma admit_cursor (f : option (list string)) (c : string) (x : EventRecord) :
  c <> "" ->
  options_admit (mkOptions f (Some c) None) x = true ->
  options_admit (mkOptions f None None) x = true /\ String.ltb c (created x) = true.
Proof.
  intros Hc. unfold options_admit. simpl.
  destruct c as [|ch c']; [congruence|]. rewrite andb_true_iff.
  intros [Ht Hl]. rewrite Ht. auto.
Qed.

Lemma admit_no_cursor (f : option (list string)) (x : EventRecord) :
  options_admit (mkOptions f None None) x
  = match f with Some ts => existsb (String.eqb (type x)) ts | None => true end.
Proof. unfold options_admit. simpl. rewrite andb_true_r. reflexivity. Qed.

Lemma ctx_streams_inArray (k s : string) (ctx : list (string * string)) :
  inArray s (map snd (filter (fun q => String.eqb (fst q) k) ctx))
  = existsb (fun q => String.eqb (fst q) k && String.eqb (snd q) s) ctx.
Proof.
  unfold inArray. induction ctx as [|[a b] ctx IH]; simpl; [reflexivity|].
  destruct (String.eqb a k); simpl; [rewrite String.eqb_sym, IH|rewrite IH]; reflexivity.
Qed.

Lemma nil_of_no_member {A} (l : list A) : (forall x, ~ In x l) -> l = [].
Proof. destruct l as [|a l]; [reflexivity|]. intros H. exfalso. apply (H a). left. reflexivity. Qed.

Section ReadFacts.
Context `{EngineLaws}.

Lemma get_perm (o : EventReadOptions) (tbl : list EventRecord) :
  Permutation (EventProvider.get o tbl) (filter (options_admit o) tbl).
Proof.
  unfold EventProvider.get, EventProvider.where_.
  destruct (EventProvider.withFilters o []) as [|f fs] eqn:E; simpl.
  - rewrite filter_all_true by (intros x; apply admit_of_nil, E).
    symmetry. apply order_perm.
  - etransitivity; [symmetry; apply order_perm|].
    apply Permutation_refl'. apply filter_ext. intros x.
    rewrite <- E, withFilters_admit. reflexivity.
Qed.

Lemma by_cond_perm (b : Cond) (o : EventReadOptions) (tbl : list EventRecord) :
  Permutation
    (if Nat.ltb 1 (length (EventProvider.withFilters o [b]))
     then order_by_created (EventProvider.where_ tbl (and_ (EventProvider.withFilters o [b])))
     else order_by_created (EventProvider.where_ tbl
                              (EventProvider.first_cond (EventProvider.withFilters o [b]))))
    (filter (fun x => b x && options_admit o x) tbl).
Proof.
  assert (Hadm : forall x, and_ (EventProvider.withFilters o [b]) x = b x && options_admit o x).
  { intros x. rewrite withFilters_admit. unfold and_. simpl. rewrite andb_true_r. reflexivity. }
  unfold EventProvider.where_.
  destruct (Nat.ltb 1 (length (EventProvider.withFilters o [b]))) eqn:L.
  - etransitivity; [symmetry; apply order_perm|].
    apply Permutation_refl'. apply filter_ext. exact Hadm.
  - assert (E : EventProvider.withFilters o [b] = [b]).
    { rewrite withFilters_app in L |- *.
      destruct (EventProvider.withFilters o []); [reflexivity|]. simpl in L. discriminate. }
    etransitivity; [symmetry; apply order_perm|].
    apply Permutation_refl'. apply filter_ext. intros x.
    rewrite <- Hadm, E. unfold and_. simpl. rewrite andb_true_r. reflexivity.
Qed.

Lemma by_cond_sorted (b : Cond) (o : EventReadOptions) (tbl : list EventRecord) :
  Sorted created_le
    (if Nat.ltb 1 (length (EventProvider.withFilters o [b]))
     then order_by_created (EventProvider.where_ tbl (and_ (EventProvider.withFilters o [b])))
     else order_by_created (EventProvider.where_ tbl
                              (EventProvider.first_cond (EventProvider.withFilters o [b])))).
Proof. destruct (Nat.ltb _ _); apply order_sorted. Qed.

Lemma getByStream_perm (s : string) (o : EventReadOptions) (tbl : list EventRecord) :
  Permutation (EventProvider.getByStream s o tbl)
              (filter (fun x => String.eqb (stream x) s && options_admit o x) tbl).
Proof. apply (by_cond_perm (EventProvider.eqStream s)). Qed.

Lemma getByStreams_perm (ss : list string) (o : EventReadOptions) (tbl : list EventRecord) :
  Permutation (EventProvider.getByStreams ss o tbl)
              (filter (fun x => inArray (stream x) ss && options_admit o x) tbl).
Proof. apply (by_cond_perm (fun r => inArray (stream r) ss)). Qed.

Lemma getEventsByContext_perm (k : string) (o : EventReadOptions) (st : Store) :
  exists res, getEventsByContext k o st = (Ok res, st)
    /\ Permutation res
         (filter (fun x => existsb (fun q => String.eqb (fst q) k && String.eqb (snd q) (stream x))
                                   (contexts_tbl st)
                           && options_admit o x) (events_tbl st))
    /\ Sorted created_le res.
Proof.
  unfold getEventsByContext, bind, contexts_getByKey, read, ret. cbn.
  destruct (map snd (filter (fun q => String.eqb (fst q) k) (contexts_tbl st))) as [|r rs] eqn:E.
  - exists []. split; [reflexivity|]. split; [|constructor].
    rewrite filter_all_false; [constructor|]. intros x.
    rewrite <- ctx_streams_inArray, E. reflexivity.
  - eexists. split; [reflexivity|]. split; [|apply by_cond_sorted].
    etransitivity; [apply getByStreams_perm|].
    apply Permutation_refl'. apply filter_ext. intros x.
    rewrite <- E, ctx_streams_inArray. reflexivity.
Qed.

(** The read of a reducer ranges over [reads_scope], filtered by its
    types and the cursor, and comes sorted on [created]. *)
Lemma reducer_events_perm (key : string) (rd : Reducer) (c : option string) (st : Store) :
  exists res, reducer_events key rd c st = (Ok res, st)
    /\ Permutation res
         (filter (fun x => reads_scope key rd (contexts_tbl st) x
                           && options_admit (mkOptions (rfilter rd) c None) x) (events_tbl st))
    /\ Sorted created_le res.
Proof.
  unfold reducer_events, reads_scope.
  destruct (rtype rd).
  - eexists. split; [reflexivity|]. split.
    + apply getByStream_perm.
    + apply by_cond_sorted.
  - apply getEventsByContext_perm.
Qed.

End ReadFacts.

(** ** Inserts *)

Lemma events_insert_tbl (r : EventRecord) (st st' : Store) (u : unit) :
  events_insert r st = (Ok u, st') ->
  events_tbl st' = events_tbl st ++ [r]
  /\ forall x, In x (events_tbl st) -> id x <> id r.
Proof.
  unfold events_insert.
  destruct (existsb (fun x => String.eqb (id x) (id r)) (events_tbl st)) eqn:E1;
    [discriminate|].
  destruct (existsb (fun x => String.eqb (stream x) (stream r)
                              && String.eqb (created x) (created r)) (events_tbl st));
    [discriminate|].
  intros Hr. unfold tell, set_events in Hr. simpl in Hr.
  injection Hr as _ <-. split; [reflexivity|].
  intros x Hx Heq.
  assert (Ht : existsb (fun x => String.eqb (id x) (id r)) (events_tbl st) = true).
  { apply existsb_exists. exists x. rewrite Heq, String.eqb_refl. auto. }
  congruence.
Qed.

Lemma events_insert_throw (r : EventRecord) (st st' : Store) (e : Error) :
  events_insert r st = (Throw e, st') -> st' = st.
Proof.
  unfold events_insert.
  repeat match goal with |- context [if ?b then _ else _] => destruct b end;
    unfold tell; simpl; congruence.
Qed.


Lemma for_tbl {A} (f : A -> M unit) (g : A -> list EventRecord)
  (Hf : forall x st st', f x st = (Ok tt, st') -> events_tbl st' = events_tbl st ++ g x)
  (xs : list A) :
  forall st st', for_ xs f st = (Ok tt, st') -> events_tbl st' = events_tbl st ++ concat (map g xs).
Proof.
  induction xs as [|x xs IH]; intros st st' Hrun; simpl in *.
  - injection Hrun as <-. rewrite app_nil_r. reflexivity.
  - apply bind_inv in Hrun as ([] & st1 & H1 & H2).
    rewrite (IH _ _ H2), (Hf _ _ _ H1), app_assoc. reflexivity.
Qed.

Lemma insert_values_tbl (rows : list EventRecord) (st st' : Store) :
  insert_values rows st = (Ok tt, st') -> events_tbl st' = events_tbl st ++ rows.
Proof.
  unfold insert_values. destruct rows as [|r0 rows0]; [discriminate|].
  generalize (r0 :: rows0) as rows. intros rows.
  destruct (for_ rows events_insert st) as [[[]|e] st1] eqn:E;
    [|discriminate].
  intros Hr. injection Hr as <-.
  rewrite (for_tbl events_insert (fun r => [r])
             (fun r s s' H => proj1 (events_insert_tbl r s s' tt H)) rows st st1 E).
  f_equal. clear E. induction rows as [|r rows IH]; simpl; [reflexivity|].
  rewrite IH. reflexivity.
Qed.

Lemma slice_skipn {A : Type} (l : list A) (i b : nat) :
  slice l i (i + b) ++ skipn (i + b) l = skipn i l.
Proof.
  unfold slice. replace (i + b - i) with b by lia.
  rewrite Nat.add_comm, <- skipn_skipn. apply firstn_skipn.
Qed.

(** With a positive batch size the loop ends within [length - i + 1]
    tests, and when no batch throws it has appended [records] from [i]. *)
Lemma insert_batches_run (records : list EventRecord) (b : nat) (Hb : 0 < b) :
  forall fuel i st, length records - i < fuel ->
  exists res, insert_batches fuel records b i st = Some res
    /\ match res with
       | (Ok _, st') => events_tbl st' = events_tbl st ++ skipn i records
       | (Throw _, _) => True
       end.
Proof.
  induction fuel as [|f IH]; intros i st Hf; [lia|]. simpl.
  destruct (Nat.ltb i (length records)) eqn:Hi.
  - apply Nat.ltb_lt in Hi.
    destruct (insert_values (slice records i (i + b)) st) as [[[]|e] st1] eqn:E.
    + destruct (IH (i + b) st1 ltac:(lia)) as (res & R & C). rewrite R.
      exists res. split; [reflexivity|].
      destruct res as [[u|e] st']; [|exact I].
      rewrite C, (insert_values_tbl _ _ _ E), <- app_assoc, slice_skipn. reflexivity.
    + eexists. split; [reflexivity|exact I].
  - apply Nat.ltb_ge in Hi. eexists. split; [reflexivity|]. simpl.
    rewrite skipn_all2 by exact Hi. rewrite app_nil_r. reflexivity.
Qed.

(** ** Snapshots *)

Lemma find_upsert_same (n k c : string) (s : json) (l : list Snapshot) :
  find (snap_is n k) (filter (fun x => negb (snap_is n k x)) l ++ [mkSnapshot n k c s])
  = Some (mkSnapshot n k c s).
Proof.
  induction l as [|x l IH].
  - simpl. unfold snap_is. simpl. rewrite !String.eqb_refl. reflexivity.
  - simpl. destruct (snap_is n k x) eqn:Hx; simpl; [exact IH|]. rewrite Hx. exact IH.
Qed.

Lemma find_upsert_pair (a b n k c : string) (s : json) (l : list Snapshot) :
  (a, b) <> (n, k) ->
  find (snap_is a b) (filter (fun x => negb (snap_is n k x)) l ++ [mkSnapshot n k c s])
  = find (snap_is a b) l.
Proof.
  intros Hne. induction l as [|x l IH].
  - simpl. unfold snap_is. simpl.
    destruct (String.eqb_spec n a), (String.eqb_spec k b); subst; simpl; congruence.
  - simpl. destruct (snap_is a b x) eqn:Ha.
    + assert (Hn : snap_is n k x = false).
      { unfold snap_is in *. apply andb_true_iff in Ha as [Ha Hb].
        apply String.eqb_eq in Ha, Hb. rewrite Ha, Hb.
        destruct (String.eqb_spec a n), (String.eqb_spec b k); subst; simpl; congruence. }
      rewrite Hn. simpl. rewrite Ha. reflexivity.
    + destruct (snap_is n k x); simpl; [exact IH|]. rewrite Ha. exact IH.
Qed.

Lemma find_remove_pair (a b n k : string) (l : list Snapshot) :
  find (snap_is a b) (filter (fun x => negb (snap_is n k x)) l)
  = if String.eqb a n && String.eqb b k then None else find (snap_is a b) l.
Proof.
  induction l as [|x l IH]; simpl.
  - destruct (_ && _); reflexivity.
  - destruct (String.eqb_spec a n), (String.eqb_spec b k); subst; simpl in *.
    + destruct (snap_is n k x) eqn:Hx; simpl; [exact IH|rewrite Hx; exact IH].
    + destruct (snap_is n k x) eqn:Hx; simpl.
      * rewrite IH. assert (Hb : snap_is n b x = false).
        { unfold snap_is in *. apply andb_true_iff in Hx as [Hx1 Hx2].
          apply String.eqb_eq in Hx2. rewrite Hx2. destruct (String.eqb_spec k b); [congruence|].
          apply andb_false_r. }
        rewrite Hb. reflexivity.
      * rewrite IH. reflexivity.
    + destruct (snap_is n k x) eqn:Hx; simpl.
      * rewrite IH. assert (Ha : snap_is a k x = false).
        { unfold snap_is in *. apply andb_true_iff in Hx as [Hx1 Hx2].
          apply String.eqb_eq in Hx1. rewrite Hx1. destruct (String.eqb_spec n a); [congruence|].
          reflexivity. }
        rewrite Ha. reflexivity.
      * rewrite IH. reflexivity.
    + destruct (snap_is n k x) eqn:Hx; simpl.
      * rewrite IH. assert (Ha : snap_is a b x = false).
        { unfold snap_is in *. apply andb_true_iff in Hx as [Hx1 Hx2].
          apply String.eqb_eq in Hx1. rewrite Hx1. destruct (String.eqb_spec n a); [congruence|].
          reflexivity. }
        rewrite Ha. reflexivity.
      * rewrite IH. reflexivity.
Qed.

Lemma insert_getById (r : EventRecord) (st st' : Store) (u : unit) :
  events_insert r st = (Ok u, st') ->
  events_tbl st' = events_tbl st ++ [r] /\ EventProvider.getById (id r) (events_tbl st') = Some r.
Proof.
  intros E. destruct (events_insert_tbl r st st' u E) as [Ht Hn].
  split; [exact Ht|]. rewrite Ht. unfold EventProvider.getById. rewrite filter_app.
  assert (E0 : filter (fun x => String.eqb (id x) (id r)) (events_tbl st) = []).
  { apply nil_of_no_member. intros x Hx. apply filter_In in Hx as [Hx Heq].
    apply String.eqb_eq in Heq. exact (Hn x Hx Heq). }
  rewrite E0. simpl. rewrite String.eqb_refl. reflexivity.
Qed.

(* ------------------------------------------------------------------ *)
(** ** Reads *)

(** [get(options)] returns exactly the rows of the table that the options
    admit, each as often as it is stored, in some order. *)
Theorem get_exact `{EngineLaws} (o : EventReadOptions) (tbl : list EventRecord) :
  Permutation (EventProvider.get o tbl) (filter (options_admit o) tbl).
Proof. apply get_perm. Qed.

Lemma get_exact_witness :
  Permutation (EventProvider.get (mkOptions (Some ["user:created"]) (Some "2023") None)
                                 [ev_c; ev_b; ev_a])
              (filter (options_admit (mkOptions (Some ["user:created"]) (Some "2023") None))
                      [ev_c; ev_b; ev_a]).
Proof.
  exact (@get_exact merge_engine merge_engine_laws
           (mkOptions (Some ["user:created"]) (Some "2023") None) [ev_c; ev_b; ev_a]).
Defined.

(** [getByStream(stream, options)] returns exactly the rows of that
    stream the options admit. *)
Theorem getByStream_exact `{EngineLaws} (s : string) (o : EventReadOptions)
  (tbl : list EventRecord) :
  Permutation (EventProvider.getByStream s o tbl)
              (filter (fun x => String.eqb (stream x) s && options_admit o x) tbl).
Proof. apply getByStream_perm. Qed.

Lemma getByStream_exact_witness :
  Permutation (EventProvider.getByStream "s2" (mkOptions None (Some "2024-01-01T00:00:00.000Z") None)
                                         [ev_c; ev_b; ev_a])
              (filter (fun x => String.eqb (stream x) "s2"
                                && options_admit (mkOptions None (Some "2024-01-01T00:00:00.000Z") None) x)
                      [ev_c; ev_b; ev_a]).
Proof.
  exact (@getByStream_exact merge_engine merge_engine_laws "s2"
           (mkOptions None (Some "2024-01-01T00:00:00.000Z") None) [ev_c; ev_b; ev_a]).
Defined.

(** [getByStreams(streams, options)] returns exactly the rows whose stream
    is listed that the options admit. *)
Theorem getByStreams_exact `{EngineLaws} (ss : list string) (o : EventReadOptions)
  (tbl : list EventRecord) :
  Permutation (EventProvider.getByStreams ss o tbl)
              (filter (fun x => existsb (String.eqb (stream x)) ss && options_admit o x) tbl).
Proof. apply getByStreams_perm. Qed.

Lemma getByStreams_exact_witness :
  Permutation (EventProvider.getByStreams ["s1"; "s2"] (mkOptions None None (Some Desc))
                                          [ev_c; ev_b; ev_a])
              (filter (fun x => existsb (String.eqb (stream x)) ["s1"; "s2"]
                                && options_admit (mkOptions None None (Some Desc)) x)
                      [ev_c; ev_b; ev_a]).
Proof.
  exact (@getByStreams_exact merge_engine merge_engine_laws ["s1"; "s2"]
           (mkOptions None None (Some Desc)) [ev_c; ev_b; ev_a]).
Defined.

(** [getEventsByContext(key, options)] changes nothing and returns exactly
    the rows of the streams the contexts table associates with [key] that
    the options admit; a key with no association gives no rows. *)
Theorem getEventsByContext_exact `{EngineLaws} (k : string) (o : EventReadOptions)
  (st : Store) :
  exists res, getEventsByContext k o st = (Ok res, st)
    /\ Permutation res
         (filter (fun x => existsb (fun q => String.eqb (fst q) k && String.eqb (snd q) (stream x))
                                   (contexts_tbl st)
                           && options_admit o x) (events_tbl st)).
Proof.
  destruct (getEventsByContext_perm k o st) as (res & E & P & _). eauto.
Qed.

Lemma getEventsByContext_exact_witness :
  exists res, getEventsByContext "team" no_options
                (mkStore [ev_a; ev_b; ev_c] [("team", "s1")] [] []) = (Ok res,
                mkStore [ev_a; ev_b; ev_c] [("team", "s1")] [] [])
    /\ Permutation res
         (filter (fun x => existsb (fun q => String.eqb (fst q) "team"
                                             && String.eqb (snd q) (stream x))
                                   [("team", "s1")]
                           && options_admit no_options x) [ev_a; ev_b; ev_c]).
Proof.
  exact (@getEventsByContext_exact merge_engine merge_engine_laws "team" no_options
           (mkStore [ev_a; ev_b; ev_c] [("team", "s1")] [] [])).
Defined.

(** [getById(id)] returns the first stored row with that id, and
    [undefined] exactly when no row has it. *)
Theorem getById_first (i : string) (tbl : list EventRecord) :
  (EventProvider.getById i tbl = None <-> forall x, In x tbl -> id x <> i)
  /\ (forall r, EventProvider.getById i tbl = Some r ->
        id r = i /\ exists pre post, tbl = pre ++ r :: post /\ forall x, In x pre -> id x <> i).
Proof.
  induction tbl as [|y tbl IH]; unfold EventProvider.getById in *; simpl.
  - split; [split; [intros _ x []|reflexivity]|discriminate].
  - destruct (String.eqb (id y) i) eqn:Hy.
    + apply String.eqb_eq in Hy. split.
      * split; [discriminate|]. intros H. exfalso. exact (H y (or_introl eq_refl) Hy).
      * intros r Hr. injection Hr as <-. split; [exact Hy|].
        exists [], tbl. split; [reflexivity|]. intros x [].
    + apply String.eqb_neq in Hy. destruct IH as [IH1 IH2]. split.
      * rewrite IH1. split.
        -- intros H x [<- | Hx]; [exact Hy | exact (H x Hx)].
        -- intros H x Hx. apply H. right. exact Hx.
      * intros r Hr. destruct (IH2 r Hr) as (Hid & pre & post & Et & Hpre).
        split; [exact Hid|]. exists (y :: pre), post. split; [rewrite Et; reflexivity|].
        intros x [<- | Hx]; [exact Hy | exact (Hpre x Hx)].
Qed.

(* ------------------------------------------------------------------ *)
(** ** Writes *)

(** [insert(record)] either appends the record, after which [getById]
    finds it, or fails and leaves the store as it was. *)
Theorem insert_then_getById (r : EventRecord) (st : Store) :
  match events_insert r st with
  | (Ok _, st') => events_tbl st' = events_tbl st ++ [r]
                   /\ EventProvider.getById (id r) (events_tbl st') = Some r
  | (Throw _, st') => st' = st
  end.
Proof.
  destruct (events_insert r st) as [[u|e] st'] eqn:E.
  - exact (insert_getById r st st' u E).
  - exact (events_insert_throw r st st' e E).
Qed.

(** After a successful [insert(record)], [getEventStatus(record)] answers
    [{exists: true, outdated: true}] from the id lookup alone. *)
Theorem insert_then_getEventStatus (r : EventRecord) (st : Store) :
  match events_insert r st with
  | (Ok _, st') => getEventStatus r st' = (Ok (mkStatus true true), add_log st' [QGetById (id r)])
  | (Throw _, _) => True
  end.
Proof.
  destruct (events_insert r st) as [[u|e] st'] eqn:E; [|exact I].
  destruct (insert_getById r st st' u E) as [_ Hy].
  unfold getEventStatus, events_getById, bind, read, tell.
  cbn -[EventProvider.getById]. rewrite Hy. reflexivity.
Qed.

(** A newer row of the same stream and type makes a record outdated, and
    an insert never makes an outdated record current again; a failed
    insert changes nothing. *)
Theorem checkOutdated_after_insert (x r : EventRecord) (st : Store) :
  match events_insert x st with
  | (Ok _, st') =>
      (EventProvider.checkOutdated (events_tbl st) r = true ->
       EventProvider.checkOutdated (events_tbl st') r = true)
      /\ (stream x = stream r -> type x = type r -> String.ltb (created r) (created x) = true ->
          EventProvider.checkOutdated (events_tbl st') r = true)
  | (Throw _, st') =>
      EventProvider.checkOutdated (events_tbl st') r = EventProvider.checkOutdated (events_tbl st) r
  end.
Proof.
  destruct (events_insert x st) as [[u|e] st'] eqn:E.
  - destruct (events_insert_tbl x st st' u E) as [Ht _]. rewrite Ht.
    unfold EventProvider.checkOutdated, EventProvider.where_. rewrite !length_filter_pos.
    split.
    + intros (y & Hy & Hc). exists y. split; [apply in_or_app; left; exact Hy | exact Hc].
    + intros Hs Hty Hlt. exists x. split; [apply in_or_app; right; left; reflexivity|].
      unfold and_, EventProvider.eqStream. simpl.
      rewrite Hs, Hty, !String.eqb_refl, Hlt. reflexivity.
  - rewrite (events_insert_throw x st st' e E). reflexivity.
Qed.

(** [insertMany(records, batchSize)] with a positive batch size finishes,
    and either every record is appended, in order, and the transaction
    commits, or (when a batch fails) the transaction rolls back and the
    events table is as it was. *)
Theorem insertMany_all_or_nothing (records : list EventRecord) (batchSize fuel : nat)
  (st : Store) (Hb : 0 < batchSize) (Hf : length records < fuel) :
  exists res, insertMany fuel records batchSize st = Some res
    /\ match res with
       | (Ok _, st') => events_tbl st' = events_tbl st ++ records
       | (Throw _, st') => events_tbl st' = events_tbl st
       end.
Proof.
  unfold insertMany.
  destruct (insert_batches_run records batchSize Hb fuel 0 st ltac:(lia)) as (res & R & C).
  rewrite R. eexists. split; [reflexivity|]. unfold transaction.
  destruct res as [[u|e] st1].
  - unfold tell. simpl. exact C.
  - reflexivity.
Qed.

Lemma insertMany_all_or_nothing_witness :
  0 < 2 /\ length [ev_a; ev_b; ev_c] < 10 /\
  exists res, insertMany 10 [ev_a; ev_b; ev_c] 2 (store_of [] []) = Some res
    /\ match res with
       | (Ok _, st') => events_tbl st' = events_tbl (store_of [] []) ++ [ev_a; ev_b; ev_c]
       | (Throw _, st') => events_tbl st' = events_tbl (store_of [] [])
       end.
Proof.
  split; [lia|]. split; [simpl; lia|].
  exact (insertMany_all_or_nothing [ev_a; ev_b; ev_c] 2 10 (store_of [] [])
           ltac:(lia) ltac:(simpl; lia)).
Defined.

(** [insertMany(records, 0)] on a non-empty list rejects at the first
    batch, [values(records.slice(0, 0))] being empty: the transaction rolls
    back and the tables are as they were. *)
Theorem insertMany_zero_batch (records : list EventRecord) (fuel : nat) (st : Store)
  (Hne : records <> []) (Hf : 0 < fuel) :
  insertMany fuel records 0 st
  = Some (Throw EmptyValues,
          mkStore (events_tbl st) (contexts_tbl st) (snapshots_tbl st) (log st ++ [ERollback])).
Proof.
  destruct fuel as [|f]; [lia|]. destruct records as [|r rs]; [congruence|].
  reflexivity.
Qed.

Lemma insertMany_zero_batch_witness :
  [ev_a] <> [] /\ 0 < 1000 /\
  insertMany 1000 [ev_a] 0 (store_of [ev_b] [])
  = Some (Throw EmptyValues, mkStore [ev_b] [] [] [ERollback]).
Proof.
  split; [discriminate|]. split; [lia|].
  exact (insertMany_zero_batch [ev_a] 1000 (store_of [ev_b] []) ltac:(discriminate) ltac:(lia)).
Defined.

(* ------------------------------------------------------------------ *)
(** ** Reducers and snapshots *)

(** With [snapshot: "manual"], [reduce] never writes: the store, its
    tables and its trace, is left as it was. *)
Theorem reduce_manual_readonly `{Engine} (cfg : Config) (gname : option string)
  (key : string) (rd : Reducer) (st : Store) (Hm : snapshot_mode cfg = Manual) :
  snd (reduce cfg gname key rd st) = st.
Proof.
  unfold reduce, bind at 1. rewrite getSnapshot_read. cbv beta iota.
  unfold bind at 1.
  match goal with |- context [reducer_events ?k ?r ?c st] =>
    destruct (reducer_events_read k r c st) as [l Hl]; rewrite Hl end.
  destruct l as [|e l].
  - destruct (option_map (fun s : Snapshot => (snap_cursor s, snap_state s))
                (find (snap_is (name rd) key) (snapshots_tbl st))) as [[? ?]|];
      reflexivity.
  - rewrite Hm. reflexivity.
Qed.

Lemma reduce_manual_readonly_witness :
  snapshot_mode (sample_config None) = Manual /\
  snd (reduce (sample_config None) None "s2" counter (store_of [ev_a; ev_c] [snap_counter_s2]))
  = store_of [ev_a; ev_c] [snap_counter_s2].
Proof.
  split; [reflexivity|].
  exact (reduce_manual_readonly (sample_config None) None "s2" counter
           (store_of [ev_a; ev_c] [snap_counter_s2]) eq_refl).
Defined.

(** When the read of [createSnapshot(key, reducer)] finds events, the
    snapshot then read back by [getSnapshot(key, reducer)] has the
    [created] of the last event as cursor and the fold of all the events
    as state; the snapshots of other (name, key) pairs and the events are
    untouched. *)
Theorem createSnapshot_then_getSnapshot `{Engine} (key : string) (rd : Reducer) (st : Store)
  (e : EventRecord) (evs : list EventRecord)
  (Hev : reducer_events key rd None st = (Ok (e :: evs), st)) :
  let st1 := snd (createSnapshot key rd st) in
  getSnapshot key rd st1 = (Ok (Some (created (last (e :: evs) e), rreduce rd (e :: evs) None)), st1)
  /\ (forall n k, (n, k) <> (name rd, key) ->
        find (snap_is n k) (snapshots_tbl st1) = find (snap_is n k) (snapshots_tbl st))
  /\ events_tbl st1 = events_tbl st.
Proof.
  cbv zeta. unfold createSnapshot, bind. rewrite Hev.
  unfold snapshots_insert, tell, set_snapshots. simpl. split; [|split].
  - rewrite getSnapshot_read. simpl. rewrite find_upsert_same. reflexivity.
  - intros n k Hne. apply find_upsert_pair. exact Hne.
  - reflexivity.
Qed.

Lemma createSnapshot_then_getSnapshot_witness :
  reducer_events "s2" counter None (store_of [ev_a; ev_c] [])
    = (Ok [ev_a; ev_c], store_of [ev_a; ev_c] [])
  /\ getSnapshot "s2" counter (snd (createSnapshot "s2" counter (store_of [ev_a; ev_c] [])))
     = (Ok (Some (created ev_c, rreduce counter [ev_a; ev_c] None)),
        snd (createSnapshot "s2" counter (store_of [ev_a; ev_c] []))).
Proof.
  split; [reflexivity|].
  exact (proj1 (createSnapshot_then_getSnapshot "s2" counter (store_of [ev_a; ev_c] [])
                  ev_a [ev_c] eq_refl)).
Defined.

(** Right after [createSnapshot(key, reducer)], [reduce(key, reducer)]
    returns the fold of all the events, the value a reduce without
    snapshot computes, and writes nothing, in either snapshot mode;
    [created] values are assumed non-empty (an empty cursor would be
    ignored by the read). *)
Theorem reduce_after_createSnapshot `{EngineLaws} (cfg : Config) (gname : option string)
  (key : string) (rd : Reducer) (st : Store) (e : EventRecord) (evs : list EventRecord)
  (Hev : reducer_events key rd None st = (Ok (e :: evs), st))
  (Hc : created (last (e :: evs) e) <> "") :
  let st1 := snd (createSnapshot key rd st) in
  reduce cfg gname key rd st1 = (Ok (Some (rreduce rd (e :: evs) None)), st1).
Proof.
  cbv zeta.
  assert (Hst1 : snd (createSnapshot key rd st)
                 = mkStore (events_tbl st) (contexts_tbl st)
                     (filter (fun x => negb (snap_is (name rd) key x)) (snapshots_tbl st)
                      ++ [mkSnapshot (name rd) key (created (last (e :: evs) e))
                                     (rreduce rd (e :: evs) None)])
                     (log st ++ [ESnapshot (name rd) key])).
  { unfold createSnapshot, bind. rewrite Hev. reflexivity. }
  rewrite Hst1.
  destruct (reducer_events_perm key rd None st) as (res0 & E0 & P0 & S0).
  rewrite Hev in E0. injection E0 as <-.
  match goal with |- reduce _ _ _ _ ?s = _ => set (st1 := s) end.
  destruct (reducer_events_perm key rd (Some (created (last (e :: evs) e))) st1)
    as (res1 & E1 & P1 & _).
  assert (Hnil : res1 = []).
  { apply nil_of_no_member. intros x Hx.
    apply (Permutation_in _ P1) in Hx. apply filter_In in Hx as [Hin Hx].
    apply andb_true_iff in Hx as [Hs Ha].
    apply admit_cursor in Ha as [Ha Hlt]; [|exact Hc].
    assert (Hx0 : In x (e :: evs)).
    { apply (Permutation_in _ (Permutation_sym P0)). apply filter_In.
      split; [exact Hin|]. simpl in Hs. rewrite Hs, Ha. reflexivity. }
    pose proof (sorted_le_last _ e S0 x Hx0) as Hle. unfold created_le in Hle.
    rewrite (string_ltb_leb _ _ Hlt) in Hle. discriminate. }
  subst res1. clear P1.
  remember (created (last (e :: evs) e)) as c eqn:Ec in *.
  unfold reduce, bind at 1. rewrite getSnapshot_read.
  unfold st1 at 1. simpl snapshots_tbl. rewrite find_upsert_same. cbv beta iota.
  unfold bind at 1. simpl option_map. rewrite E1. reflexivity.
Qed.

Lemma reduce_after_createSnapshot_witness :
  reducer_events "s2" counter None (store_of [ev_a; ev_c] [])
    = (Ok [ev_a; ev_c], store_of [ev_a; ev_c] [])
  /\ created (last [ev_a; ev_c] ev_a) <> ""
  /\ reduce (sample_config (Some Auto)) None "s2" counter
       (snd (createSnapshot "s2" counter (store_of [ev_a; ev_c] [])))
     = (Ok (Some (rreduce counter [ev_a; ev_c] None)),
        snd (createSnapshot "s2" counter (store_of [ev_a; ev_c] []))).
Proof.
  split; [reflexivity|]. split; [discriminate|].
  exact (@reduce_after_createSnapshot merge_engine merge_engine_laws (sample_config (Some Auto))
           None "s2" counter (store_of [ev_a; ev_c] []) ev_a [ev_c] eq_refl ltac:(discriminate)).
Defined.

(** After [deleteSnapshot(key, reducer)], [getSnapshot(key, reducer)]
    finds nothing; the snapshots of other (name, key) pairs and the events
    are untouched. *)
Theorem deleteSnapshot_then_getSnapshot (key : string) (rd : Reducer) (st : Store) :
  let st1 := snd (deleteSnapshot key rd st) in
  getSnapshot key rd st1 = (Ok None, st1)
  /\ (forall n k, (n, k) <> (name rd, key) ->
        find (snap_is n k) (snapshots_tbl st1) = find (snap_is n k) (snapshots_tbl st))
  /\ events_tbl st1 = events_tbl st.
Proof.
  cbv zeta. unfold deleteSnapshot, snapshots_remove, set_snapshots. simpl.
  split; [|split].
  - rewrite getSnapshot_read. simpl. rewrite find_remove_pair, !String.eqb_refl.
    reflexivity.
  - intros n k Hne. rewrite find_remove_pair.
    destruct (String.eqb_spec n (name rd)), (String.eqb_spec k key); subst; simpl;
      congruence.
  - reflexivity.
Qed.

(** [SQLiteEventStore.reduce(stream, reducer)] changes nothing and reads
    the rows of [stream] past the snapshot cursor, sorted on [created], with
    no type filter whatever the reducer's type and filter; it answers
    [undefined] when that read is empty, and otherwise the fold of the read
    from the snapshot state. *)
Theorem sqlite_reduce_reads_stream `{EngineLaws} (s : string) (rd : Reducer) (st : Store) :
  let snapshot := option_map (fun x => (snap_cursor x, snap_state x))
                             (find (snap_is (name rd) s) (snapshots_tbl st)) in
  exists events,
    Sorted created_le events
    /\ Permutation events
         (filter (fun x => String.eqb (stream x) s
                           && options_admit (mkOptions None (option_map fst snapshot) None) x)
                 (events_tbl st))
    /\ sqlite_reduce s rd st
       = (Ok (match events with
              | [] => None
              | _ :: _ => Some (rreduce rd events (option_map snd snapshot))
              end), st).
Proof.
  cbv zeta. unfold sqlite_reduce, bind at 1. rewrite getSnapshot_read. cbv beta iota.
  set (c := option_map fst (option_map (fun x => (snap_cursor x, snap_state x))
                                       (find (snap_is (name rd) s) (snapshots_tbl st)))).
  exists (EventProvider.getByStream s (mkOptions None c None) (events_tbl st)). split; [|split].
  - apply by_cond_sorted.
  - apply getByStream_perm.
  - unfold bind, getEventsByStream, read. cbv beta iota.
    destruct (EventProvider.getByStream s (mkOptions None c None) (events_tbl st));
      reflexivity.
Qed.

Lemma sqlite_reduce_reads_stream_witness :
  exists events,
    Sorted created_le events
    /\ Permutation events
         (filter (fun x => String.eqb (stream x) "s2"
                           && options_admit (mkOptions None (Some (snap_cursor snap_counter_s2)) None) x)
                 [ev_a; ev_b; ev_c])
    /\ sqlite_reduce "s2" counter (store_of [ev_a; ev_b; ev_c] [snap_counter_s2])
       = (Ok (match events with
              | [] => None
              | _ :: _ => Some (rreduce counter events (Some (snap_state snap_counter_s2)))
              end), store_of [ev_a; ev_b; ev_c] [snap_counter_s2]).
Proof.
  exact (@sqlite_reduce_reads_stream merge_engine merge_engine_laws "s2" counter
           (store_of [ev_a; ev_b; ev_c] [snap_counter_s2])).
Defined.
